(** * Triangle peg solitaire: the solver of [main.ts] and of its sibling file

    A shallow embedding of the board, the position bit mask, the move
    generator and the backtracking search, followed by the properties the
    specification states about them. *)

From Stdlib Require Import ZArith List Bool Lia.
From Stdlib Require String Ascii DecimalString.
Import ListNotations.

Local Open Scope Z_scope.

(** ** Numbers

    Positions are JavaScript numbers that only ever pass through the bit
    operators, whose operands and results are 32-bit signed integers. *)

Module Int32.

Definition wrap (z : Z) : Z := (z + 2 ^ 31) mod 2 ^ 32 - 2 ^ 31.

Definition inRange (z : Z) : Prop := - 2 ^ 31 <= z < 2 ^ 31.

(** [a << n]: the shift count is taken modulo 32. *)
Definition shl (a n : Z) : Z := wrap (Z.shiftl a (n mod 32)).

Definition and (a b : Z) : Z := wrap (Z.land a b).
Definition or (a b : Z) : Z := wrap (Z.lor a b).
Definition xor (a b : Z) : Z := wrap (Z.lxor a b).

(** Truthiness of a number. *)
Definition truthy (z : Z) : bool := negb (z =? 0).

End Int32.

(** ** Generators

    A generator body runs to its end, hands out a value, or raises the
    TypeError of a property read on [undefined]. *)

Inductive Gen (A : Type) : Type :=
| Done
| Yield (a : A) (rest : Gen A)
| Throw.

Arguments Done {A}.
Arguments Yield {A} a rest.
Arguments Throw {A}.

Fixpoint gapp {A} (g k : Gen A) : Gen A :=
  match g with
  | Done => k
  | Yield a rest => Yield a (gapp rest k)
  | Throw => Throw
  end.

(** A [for ... of] loop whose body is itself a generator piece. *)
Fixpoint forOf {A B} (body : A -> Gen B) (l : list A) : Gen B :=
  match l with
  | [] => Done
  | a :: l' => gapp (body a) (forOf body l')
  end.

Fixpoint yields {A} (g : Gen A) : list A :=
  match g with
  | Yield a rest => a :: yields rest
  | _ => []
  end.

Fixpoint throws {A} (g : Gen A) : bool :=
  match g with
  | Done => false
  | Yield _ rest => throws rest
  | Throw => true
  end.

(** ** Board *)

Definition N : Z := 5.

Record Hole : Type := mkHole { row : Z; col : Z; index : Z }.

Record Board : Type := mkBoard { grid : list (list Hole) }.

(** Array read: [None] stands for [undefined]. *)
Definition at_ {A} (l : list A) (i : Z) : option A :=
  if i <? 0 then None else nth_error l (Z.to_nat i).

(** [grid[r][c]], with [None] when the read hits a missing row or column. *)
Definition gridAt (g : list (list Hole)) (r c : Z) : option Hole :=
  match at_ g r with
  | Some thisRow => at_ thisRow c
  | None => None
  end.

(** Inner loop of [makeBoard]: [n] iterations left, next column [c], next
    index [i]; returns the holes pushed and the index reached. *)
Fixpoint fillRow (n : nat) (r c i : Z) : list Hole * Z :=
  match n with
  | O => ([], i)
  | S n' =>
      let (rest, i') := fillRow n' r (c + 1) (i + 1) in
      (mkHole r c i :: rest, i')
  end.

(** Outer loop of [makeBoard]: [n] rows left, next row [r], next index [i]. *)
Fixpoint fillGrid (n : nat) (r i : Z) : list (list Hole) :=
  match n with
  | O => []
  | S n' =>
      let (thisRow, i') := fillRow (Z.to_nat (r + 1)) r 0 i in
      thisRow :: fillGrid n' (r + 1) i'
  end.

Definition makeBoard : Board := mkBoard (fillGrid (Z.to_nat N) 0 0).

Definition holes (b : Board) : list Hole := concat (grid b).

(** ** Position *)

Record Position : Type := mkPosition { bits : Z }.

Definition hasPeg (p : Position) (h : Hole) : Z :=
  Int32.and (bits p) (Int32.shl 1 (index h)).

Definition isEmpty (p : Position) (h : Hole) : bool :=
  negb (Int32.truthy (hasPeg p h)).

Definition fullBoardWithVacancyAt (i : Z) : Position :=
  mkPosition (Int32.xor (Int32.shl 1 i) 32767).

(** ** Moves *)

Record Move : Type := mkMove {
  apply : Position -> Position;
  start : Hole;
  middle : Hole;
  destination : Hole
}.

Definition moveMask (s m d : Hole) : Z :=
  Int32.or (Int32.or (Int32.shl 1 (index s)) (Int32.shl 1 (index m)))
           (Int32.shl 1 (index d)).

(** The object literal yielded by [possibleMoves]. *)
Definition jump (s m d : Hole) : Move :=
  let mask := moveMask s m d in
  {| apply := fun p => mkPosition (Int32.xor (bits p) mask);
     start := s; middle := m; destination := d |}.

(** Body of the innermost loop, shared by the two files: [step] is the
    one-step neighbour function of the direction at hand. *)
Definition tryDirection (p : Position) (step : Hole -> option Hole)
    (s : Hole) : Gen Move :=
  match step s with
  | None => Throw
  | Some m =>
      if isEmpty p m then Done
      else match step m with
           | None => Throw
           | Some d =>
               if Int32.truthy (hasPeg p d) then Done
               else Yield (jump s m d) Done
           end
  end.

(** Result of [addMoves] and [solve]: a list of moves, [null], or the
    TypeError escaping from the generator. *)
Inductive Outcome : Type :=
| Solution (moves : list Move)
| Null
| TypeError.

(** The [for ... of] loop of [addMoves]: the first move whose recursive call
    returns a list wins. *)
Fixpoint firstSolution (recur : Move -> Outcome) (g : Gen Move) : Outcome :=
  match g with
  | Done => Null
  | Throw => TypeError
  | Yield m rest =>
      match recur m with
      | Solution tail => Solution (m :: tail)
      | Null => firstSolution recur rest
      | TypeError => TypeError
      end
  end.

(** *** [main.ts]: directions as offset pairs *)

Module Offsets.

Record Delta : Type := mkDelta { rowDelta : Z; colDelta : Z }.

Definition directions (h : Hole) : list Delta :=
  (if 1 <? col h then [mkDelta 0 (-1)] else []) ++
  (if col h + 2 <=? row h then [mkDelta 0 1] else []) ++
  (if (1 <? row h) && (col h <? row h - 2) then [mkDelta (-1) 0] else []) ++
  (if (1 <? row h) && (1 <? col h) then [mkDelta (-1) (-1)] else []) ++
  (if row h <? N - 2 then [mkDelta 1 0; mkDelta 1 1] else []).

Definition neighbor (g : list (list Hole)) (d : Delta) (h : Hole)
  : option Hole :=
  gridAt g (row h + rowDelta d) (col h + colDelta d).

Definition possibleMoves (p : Position) (b : Board) : Gen Move :=
  forOf (fun thisRow =>
    forOf (fun s =>
      if Int32.truthy (hasPeg p s)
      then forOf (fun d => tryDirection p (neighbor (grid b) d) s)
                 (directions s)
      else Done) thisRow) (grid b).

Fixpoint addMoves (b : Board) (depth : nat) (p : Position) : Outcome :=
  match depth with
  | O => Solution []
  | S depth' =>
      firstSolution (fun m => addMoves b depth' (apply m p))
                    (possibleMoves p b)
  end.

Definition solve (p : Position) (b : Board) : Outcome := addMoves b 13 p.

End Offsets.

(** *** The sibling file: directions as neighbour closures *)

Module Closures.

Definition Direction : Type := Hole -> option Hole.

Definition directions (g : list (list Hole)) (h : Hole) : list Direction :=
  (if 1 <? col h then [fun x => gridAt g (row x) (col x - 1)] else []) ++
  (if col h + 2 <=? row h
   then [fun x => gridAt g (row x) (col x + 1)] else []) ++
  (if (1 <? row h) && (col h <? row h - 2)
   then [fun x => gridAt g (row x - 1) (col x)] else []) ++
  (if (1 <? row h) && (1 <? col h)
   then [fun x => gridAt g (row x - 1) (col x - 1)] else []) ++
  (if row h <? N - 2
   then [fun x => gridAt g (row x + 1) (col x);
         fun x => gridAt g (row x + 1) (col x + 1)] else []).

Definition possibleMoves (p : Position) (b : Board) : Gen Move :=
  forOf (fun thisRow =>
    forOf (fun s =>
      if Int32.truthy (hasPeg p s)
      then forOf (fun direction => tryDirection p direction s)
                 (directions (grid b) s)
      else Done) thisRow) (grid b).

Fixpoint addMoves (b : Board) (depth : nat) (p : Position) : Outcome :=
  match depth with
  | O => Solution []
  | S depth' =>
      firstSolution (fun m => addMoves b depth' (apply m p))
                    (possibleMoves p b)
  end.

Definition solve (p : Position) (b : Board) : Outcome := addMoves b 13 p.

End Closures.

(** Replaying a list of moves from a position, first move first. *)
Fixpoint applyMoves (ms : list Move) (p : Position) : Position :=
  match ms with
  | [] => p
  | m :: ms' => applyMoves ms' (apply m p)
  end.

(** The two files side by side. *)
Inductive Variant : Type := OffsetPairs | NeighborClosures.

Definition possibleMovesOf (v : Variant) : Position -> Board -> Gen Move :=
  match v with
  | OffsetPairs => Offsets.possibleMoves
  | NeighborClosures => Closures.possibleMoves
  end.

Definition solveOf (v : Variant) : Position -> Board -> Outcome :=
  match v with
  | OffsetPairs => Offsets.solve
  | NeighborClosures => Closures.solve
  end.

(** The geometric jumps of a board: every (start, middle, destination) the
    direction rules of [main.ts] reach, whatever the position. *)
Definition jumpsFrom (g : list (list Hole)) (s : Hole)
  : list (Hole * Hole * Hole) :=
  flat_map (fun d =>
    match Offsets.neighbor g d s with
    | Some m =>
        match Offsets.neighbor g d m with
        | Some dst => [(s, m, dst)]
        | None => []
        end
    | None => []
    end) (Offsets.directions s).

Definition jumps (b : Board) : list (Hole * Hole * Hole) :=
  flat_map (jumpsFrom (grid b)) (holes b).

(** Start and middle hold a peg, the destination does not. *)
Definition legal (p : Position) (j : Hole * Hole * Hole) : bool :=
  let '(s, m, d) := j in
  Int32.truthy (hasPeg p s) && Int32.truthy (hasPeg p m) && isEmpty p d.

(** No direction of any hole of the board leaves the grid. *)
Definition safeBoard (b : Board) : bool :=
  forallb (fun s =>
    forallb (fun d =>
      match Offsets.neighbor (grid b) d s with
      | Some m =>
          match Offsets.neighbor (grid b) d m with
          | Some _ => true
          | None => false
          end
      | None => false
      end) (Offsets.directions s)) (holes b).

(** ** Notions used by the statements below *)

(** The peg count of a position: the number of holes of the board for which
    [hasPeg] is truthy.  The source has no function for it. *)
Definition pegCount (p : Position) (b : Board) : Z :=
  Z.of_nat (length (filter (fun h => Int32.truthy (hasPeg p h)) (holes b))).

(** The invariant of a board: a hole sits where its [row] and [col] say,
    indices are pairwise different, and every index is a bit position of
    the 32-bit mask. *)
Definition wellFormed (b : Board) : Prop :=
  (forall r c h, gridAt (grid b) r c = Some h -> row h = r /\ col h = c) /\
  NoDup (map index (holes b)) /\
  (forall h, In h (holes b) -> 0 <= index h < 32).

(** Every move of the list was yielded for the position it is applied to. *)
Fixpoint legalFrom (b : Board) (p : Position) (ms : list Move) : Prop :=
  match ms with
  | [] => True
  | m :: ms' =>
      In m (yields (Offsets.possibleMoves p b)) /\ legalFrom b (apply m p) ms'
  end.

Definition cnt (f : Hole -> bool) (l : list Hole) : Z :=
  Z.of_nat (length (filter f l)).

Definition triple (mv : Move) : Hole * Hole * Hole :=
  (start mv, middle mv, destination mv).

Definition jumpOf (j : Hole * Hole * Hole) : Move :=
  let '(s, m, d) := j in jump s m d.

Definition triplesOf (o : Outcome) : option (list (Hole * Hole * Hole)) :=
  match o with
  | Solution ms => Some (map triple ms)
  | _ => None
  end.

(** The solution [main.ts] prints for the vacancy at hole 12. *)
Definition standardJumps : list (Hole * Hole * Hole) :=
  [ (mkHole 2 0 3, mkHole 3 1 7, mkHole 4 2 12);
    (mkHole 0 0 0, mkHole 1 0 1, mkHole 2 0 3);
    (mkHole 1 1 2, mkHole 2 1 4, mkHole 3 1 7);
    (mkHole 3 0 6, mkHole 2 0 3, mkHole 1 0 1);
    (mkHole 3 3 9, mkHole 2 2 5, mkHole 1 1 2);
    (mkHole 4 2 12, mkHole 3 1 7, mkHole 2 0 3);
    (mkHole 1 0 1, mkHole 2 0 3, mkHole 3 0 6);
    (mkHole 4 0 10, mkHole 3 0 6, mkHole 2 0 3);
    (mkHole 4 3 13, mkHole 3 2 8, mkHole 2 1 4);
    (mkHole 1 1 2, mkHole 2 1 4, mkHole 3 1 7);
    (mkHole 2 0 3, mkHole 3 1 7, mkHole 4 2 12);
    (mkHole 4 1 11, mkHole 4 2 12, mkHole 4 3 13);
    (mkHole 4 4 14, mkHole 4 3 13, mkHole 4 2 12) ].

Definition standardSolution : list Move := map jumpOf standardJumps.

(** An upward jump (row delta -1, column delta 0) that starts at a hole with
    [col = row - 2]. *)
Definition upwardFromEdge (j : Hole * Hole * Hole) : bool :=
  let '(s, m, _) := j in
  (col s =? row s - 2) && (row m =? row s - 1) && (col m =? col s).

Definition inTriangle (h : Hole) : bool :=
  (0 <=? col h) && (col h <=? row h) && (row h <? N).

(** Both reads of a direction succeed and land where the offsets say. *)
Definition stepsInBounds (g : list (list Hole)) (s : Hole)
    (dl : Offsets.Delta) : bool :=
  match Offsets.neighbor g dl s with
  | Some m =>
      match Offsets.neighbor g dl m with
      | Some d =>
          (row m =? row s + Offsets.rowDelta dl)
          && (col m =? col s + Offsets.colDelta dl)
          && inTriangle m
          && (row d =? row s + 2 * Offsets.rowDelta dl)
          && (col d =? col s + 2 * Offsets.colDelta dl)
          && inTriangle d
      | None => false
      end
  | None => false
  end.

(** ** Printing the solution *)

Module Printing.
Import String.
Local Open Scope string_scope.

(** A number inside a template literal: the decimal digits of an integer,
    with a minus sign when negative (rows and columns are small integers,
    far below the size at which JavaScript switches to exponents). *)
Definition showNumber (z : Z) : string :=
  DecimalString.NilZero.string_of_int (Z.to_int z).

Definition newline : string := String (Ascii.ascii_of_nat 10) EmptyString.

(** [Array.prototype.join] on an array of strings. *)
Fixpoint join (sep : string) (l : list string) : string :=
  match l with
  | [] => ""
  | x :: rest =>
      match rest with
      | [] => x
      | _ :: _ => x ++ sep ++ join sep rest
      end
  end.

(** The template literal of [movesToString]. *)
Definition moveLine (mv : Move) : string :=
  showNumber (row (start mv)) ++ ", " ++ showNumber (col (start mv))
  ++ " -> "
  ++ showNumber (row (destination mv)) ++ ", "
  ++ showNumber (col (destination mv)).

Definition movesToString (moves : list Move) : string :=
  join newline (List.map moveLine moves).

(** [console.log(movesToString(solve(position, board)))]: the text logged,
    or [None] when [solve] threw or returned [null], on which [.map] throws. *)
Definition logged (o : Outcome) : option string :=
  match o with
  | Solution ms => Some (movesToString ms)
  | Null => None
  | TypeError => None
  end.

Fixpoint countChar (c : Ascii.ascii) (s : string) : nat :=
  match s with
  | EmptyString => 0
  | String a rest =>
      (if Ascii.eqb a c then 1 else 0) + countChar c rest
  end.

End Printing.

(** ** 32-bit arithmetic *)

Module Int32Facts.
Import Int32.

Lemma wrap_inRange z : inRange (wrap z).
Proof.
  unfold inRange, wrap.
  pose proof (Z.mod_pos_bound (z + 2 ^ 31) (2 ^ 32) eq_refl). lia.
Qed.

Lemma wrap_small z : inRange z -> wrap z = z.
Proof.
  unfold inRange, wrap. intros H.
  rewrite Z.mod_small; lia.
Qed.

Lemma wrap_mod z : wrap z mod 2 ^ 32 = z mod 2 ^ 32.
Proof.
  unfold wrap.
  rewrite Zminus_mod, Zmod_mod, <- Zminus_mod.
  f_equal. lia.
Qed.

Lemma testbit_low_mod z i :
  0 <= i < 32 -> Z.testbit (z mod 2 ^ 32) i = Z.testbit z i.
Proof. intros H. apply Z.mod_pow2_bits_low. lia. Qed.

Lemma testbit_wrap z i :
  0 <= i < 32 -> Z.testbit (wrap z) i = Z.testbit z i.
Proof.
  intros H.
  rewrite <- (testbit_low_mod (wrap z)), wrap_mod by assumption.
  now apply testbit_low_mod.
Qed.

Lemma mod_ext a b :
  (forall i, 0 <= i < 32 -> Z.testbit a i = Z.testbit b i) ->
  a mod 2 ^ 32 = b mod 2 ^ 32.
Proof.
  intros H. apply Z.bits_inj'. intros i Hi.
  destruct (Z.lt_ge_cases i 32) as [Hlt | Hge].
  - rewrite !testbit_low_mod by lia. apply H. lia.
  - rewrite !Z.mod_pow2_bits_high by lia. reflexivity.
Qed.

Lemma wrap_ext a b :
  (forall i, 0 <= i < 32 -> Z.testbit a i = Z.testbit b i) ->
  wrap a = wrap b.
Proof.
  intros H. apply mod_ext in H. unfold wrap.
  rewrite <- (Zplus_mod_idemp_l a), <- (Zplus_mod_idemp_l b), H.
  reflexivity.
Qed.

Lemma testbit_and a b i :
  0 <= i < 32 -> Z.testbit (and a b) i = Z.testbit a i && Z.testbit b i.
Proof. intros H. unfold and. now rewrite testbit_wrap, Z.land_spec. Qed.

Lemma testbit_or a b i :
  0 <= i < 32 -> Z.testbit (or a b) i = Z.testbit a i || Z.testbit b i.
Proof. intros H. unfold or. now rewrite testbit_wrap, Z.lor_spec. Qed.

Lemma testbit_xor a b i :
  0 <= i < 32 -> Z.testbit (xor a b) i = xorb (Z.testbit a i) (Z.testbit b i).
Proof. intros H. unfold xor. now rewrite testbit_wrap, Z.lxor_spec. Qed.

(** [1 << i] has exactly the bit [i mod 32] set among its 32 bits. *)
Lemma testbit_shl_1 i j :
  0 <= j < 32 -> Z.testbit (shl 1 i) j = (i mod 32 =? j).
Proof.
  intros Hj. unfold shl. rewrite testbit_wrap by assumption.
  assert (0 <= i mod 32 < 32) by (apply Z.mod_pos_bound; lia).
  rewrite Z.shiftl_1_l. apply Z.pow2_bits_eqb. lia.
Qed.

(** [a & (1 << i)] is truthy exactly when bit [i mod 32] of [a] is set. *)
Lemma truthy_and_shl a i :
  truthy (and a (shl 1 i)) = Z.testbit a (i mod 32).
Proof.
  assert (Hk : 0 <= i mod 32 < 32) by (apply Z.mod_pos_bound; lia).
  unfold truthy. destruct (Z.testbit a (i mod 32)) eqn:E.
  - destruct (Z.eqb_spec (and a (shl 1 i)) 0) as [H0 | _]; [| reflexivity].
    exfalso.
    assert (H : Z.testbit (and a (shl 1 i)) (i mod 32) = true).
    { rewrite testbit_and, testbit_shl_1, E, Z.eqb_refl by assumption.
      reflexivity. }
    rewrite H0, Z.bits_0 in H. discriminate.
  - replace (and a (shl 1 i)) with 0; [reflexivity |].
    transitivity (wrap 0); [reflexivity |].
    unfold and. apply wrap_ext. intros j Hj.
    rewrite Z.land_spec, testbit_shl_1, Z.bits_0 by assumption.
    destruct (Z.eqb_spec (i mod 32) j) as [<- | _].
    + now rewrite E.
    + now rewrite Bool.andb_false_r.
Qed.

(** Toggling the same mask twice gives back the 32-bit value. *)
Lemma xor_xor a mask : xor (xor a mask) mask = wrap a.
Proof.
  unfold xor at 1. apply wrap_ext. intros i Hi.
  rewrite Z.lxor_spec, testbit_xor by assumption.
  now destruct (Z.testbit a i), (Z.testbit mask i).
Qed.

End Int32Facts.

(** ** Generators: what is yielded and when a loop throws *)

Section GenFacts.
Context {A B : Type}.

Lemma throws_gapp (g k : Gen B) :
  throws (gapp g k) = throws g || (throws k).
Proof. induction g; simpl; auto. Qed.

Lemma yields_gapp (g k : Gen B) :
  throws g = false -> yields (gapp g k) = yields g ++ yields k.
Proof.
  induction g; simpl; intros H; try congruence.
  now rewrite IHg.
Qed.

Lemma In_yields_gapp (g k : Gen B) x :
  In x (yields (gapp g k)) -> In x (yields g) \/ In x (yields k).
Proof.
  induction g as [| a rest IH |]; simpl.
  - auto.
  - intros [-> | H]; auto. destruct (IH H); auto.
  - intros [].
Qed.

Lemma In_yields_forOf (body : A -> Gen B) l x :
  In x (yields (forOf body l)) ->
  exists a, In a l /\ In x (yields (body a)).
Proof.
  induction l as [| a l IH]; simpl; [intros [] |].
  intros H. apply In_yields_gapp in H as [H | H].
  - exists a. auto.
  - destruct (IH H) as (a' & Ha' & Hx). exists a'. auto.
Qed.

Lemma throws_forOf (body : A -> Gen B) l :
  (forall a, In a l -> throws (body a) = false) ->
  throws (forOf body l) = false.
Proof.
  induction l as [| a l IH]; simpl; intros H; [reflexivity |].
  rewrite throws_gapp, H, IH; auto.
Qed.

Lemma yields_forOf (body : A -> Gen B) l :
  (forall a, In a l -> throws (body a) = false) ->
  yields (forOf body l) = flat_map (fun a => yields (body a)) l.
Proof.
  induction l as [| a l IH]; simpl; intros H; [reflexivity |].
  rewrite yields_gapp, IH; auto.
Qed.

Lemma forOf_ext (f g : A -> Gen B) l :
  (forall a, In a l -> f a = g a) -> forOf f l = forOf g l.
Proof.
  induction l as [| a l IH]; simpl; intros H; [reflexivity |].
  rewrite H, IH; auto.
Qed.

Lemma quiet_empty_Done (g : Gen B) :
  throws g = false -> yields g = [] -> g = Done.
Proof. destruct g; simpl; congruence. Qed.

End GenFacts.

(** ** The innermost loop body *)

Lemma In_tryDirection p step s mv :
  In mv (yields (tryDirection p step s)) ->
  exists m d,
    step s = Some m /\ step m = Some d /\
    isEmpty p m = false /\ Int32.truthy (hasPeg p d) = false /\
    mv = jump s m d.
Proof.
  unfold tryDirection. intros H.
  destruct (step s) as [m |] eqn:Hm; [| destruct H].
  destruct (isEmpty p m) eqn:Em; [destruct H |].
  destruct (step m) as [d |] eqn:Hd; [| destruct H].
  destruct (Int32.truthy (hasPeg p d)) eqn:Ed; [destruct H |].
  destruct H as [<- | []]. exists m, d. repeat split; assumption.
Qed.

Lemma tryDirection_in_grid p step s m d :
  step s = Some m -> step m = Some d ->
  tryDirection p step s =
    if negb (isEmpty p m) && isEmpty p d
    then Yield (jump s m d) Done else Done.
Proof.
  unfold tryDirection, isEmpty. intros -> ->.
  destruct (Int32.truthy (hasPeg p m)), (Int32.truthy (hasPeg p d));
    reflexivity.
Qed.

Lemma tryDirection_ext p step1 step2 s :
  (forall h, step1 h = step2 h) ->
  tryDirection p step1 s = tryDirection p step2 s.
Proof.
  intros H. unfold tryDirection. rewrite (H s).
  destruct (step2 s) as [m |]; [| reflexivity].
  now rewrite (H m).
Qed.

(** ** Move enumeration against the table of geometric jumps *)

Lemma In_jumps b s m d :
  In s (holes b) -> forall dl,
  In dl (Offsets.directions s) ->
  Offsets.neighbor (grid b) dl s = Some m ->
  Offsets.neighbor (grid b) dl m = Some d ->
  In (s, m, d) (jumps b).
Proof.
  intros Hs dl Hdl Hm Hd.
  unfold jumps. apply in_flat_map. exists s. split; [assumption |].
  unfold jumpsFrom. apply in_flat_map. exists dl. split; [assumption |].
  rewrite Hm, Hd. now left.
Qed.

Lemma jumps_inv b s m d :
  In (s, m, d) (jumps b) ->
  In s (holes b) /\ exists dl,
    In dl (Offsets.directions s) /\
    Offsets.neighbor (grid b) dl s = Some m /\
    Offsets.neighbor (grid b) dl m = Some d.
Proof.
  unfold jumps, jumpsFrom. intros H.
  apply in_flat_map in H as (s' & Hs' & H).
  apply in_flat_map in H as (dl & Hdl & H).
  destruct (Offsets.neighbor (grid b) dl s') as [m' |] eqn:Em; [| destruct H].
  destruct (Offsets.neighbor (grid b) dl m') as [d' |] eqn:Ed; [| destruct H].
  destruct H as [H | []]. inversion H; subst.
  split; [assumption |]. exists dl. auto.
Qed.

Lemma safeBoard_spec b :
  safeBoard b = true ->
  forall s dl, In s (holes b) -> In dl (Offsets.directions s) ->
  exists m d,
    Offsets.neighbor (grid b) dl s = Some m /\
    Offsets.neighbor (grid b) dl m = Some d.
Proof.
  unfold safeBoard. intros H s dl Hs Hdl.
  rewrite forallb_forall in H. specialize (H s Hs).
  rewrite forallb_forall in H. specialize (H dl Hdl).
  destruct (Offsets.neighbor (grid b) dl s) as [m |] eqn:Hm; [| discriminate].
  destruct (Offsets.neighbor (grid b) dl m) as [d |] eqn:Hd; [| discriminate].
  exists m, d. split; [reflexivity | assumption].
Qed.

Lemma In_possibleMoves p b mv :
  In mv (yields (Offsets.possibleMoves p b)) ->
  exists s m d,
    In (s, m, d) (jumps b) /\ legal p (s, m, d) = true /\ mv = jump s m d.
Proof.
  unfold Offsets.possibleMoves. intros H.
  apply In_yields_forOf in H as (thisRow & Hrow & H).
  apply In_yields_forOf in H as (s & Hs & H).
  destruct (Int32.truthy (hasPeg p s)) eqn:Es; [| destruct H].
  apply In_yields_forOf in H as (dl & Hdl & H).
  apply In_tryDirection in H as (m & d & Hm & Hd & Em & Ed & ->).
  exists s, m, d. split; [| split; [| reflexivity]].
  - apply In_jumps with dl; auto.
    unfold holes. apply in_concat. exists thisRow. auto.
  - unfold legal, isEmpty in *. rewrite Es, Ed.
    now destruct (Int32.truthy (hasPeg p m)).
Qed.

Lemma throws_possibleMoves p b :
  safeBoard b = true -> throws (Offsets.possibleMoves p b) = false.
Proof.
  intros Hsafe. unfold Offsets.possibleMoves.
  apply throws_forOf. intros thisRow Hrow.
  apply throws_forOf. intros s Hs.
  destruct (Int32.truthy (hasPeg p s)); [| reflexivity].
  apply throws_forOf. intros dl Hdl.
  assert (Hin : In s (holes b)).
  { unfold holes. apply in_concat. exists thisRow. auto. }
  destruct (safeBoard_spec b Hsafe s dl Hin Hdl) as (m & d & Hm & Hd).
  rewrite (tryDirection_in_grid p _ s m d Hm Hd).
  now destruct (negb (isEmpty p m) && isEmpty p d).
Qed.

Lemma possibleMoves_In p b s m d :
  safeBoard b = true ->
  In (s, m, d) (jumps b) -> legal p (s, m, d) = true ->
  In (jump s m d) (yields (Offsets.possibleMoves p b)).
Proof.
  intros Hsafe Hj Hl.
  apply jumps_inv in Hj as (Hs & dl & Hdl & Hm & Hd).
  unfold holes in Hs. apply in_concat in Hs as (thisRow & Hrow & Hs).
  assert (Hholes : forall r x, In r (grid b) -> In x r -> In x (holes b)).
  { intros r x Hr Hx. unfold holes. apply in_concat. exists r. auto. }
  assert (Hdir : forall r x, In r (grid b) -> In x r ->
            forall dl', In dl' (Offsets.directions x) ->
            throws (tryDirection p (Offsets.neighbor (grid b) dl') x) = false).
  { intros r x Hr Hx dl' Hdl'.
    destruct (safeBoard_spec b Hsafe x dl' (Hholes r x Hr Hx) Hdl')
      as (m' & d' & Hm' & Hd').
    rewrite (tryDirection_in_grid p _ x m' d' Hm' Hd').
    now destruct (negb (isEmpty p m') && isEmpty p d'). }
  assert (Hhole : forall r x, In r (grid b) -> In x r ->
            throws (if Int32.truthy (hasPeg p x)
                    then forOf (fun dl' =>
                           tryDirection p (Offsets.neighbor (grid b) dl') x)
                           (Offsets.directions x)
                    else Done) = false).
  { intros r x Hr Hx. destruct (Int32.truthy (hasPeg p x)); [| reflexivity].
    apply throws_forOf. intros dl' Hdl'. now apply (Hdir r x). }
  unfold Offsets.possibleMoves.
  rewrite yields_forOf.
  2:{ intros r Hr. apply throws_forOf. intros x Hx. now apply (Hhole r x). }
  apply in_flat_map. exists thisRow. split; [assumption |].
  rewrite yields_forOf by (intros x Hx; now apply (Hhole thisRow x)).
  apply in_flat_map. exists s. split; [assumption |].
  unfold legal in Hl.
  apply andb_prop in Hl as [Hl Hdst]. apply andb_prop in Hl as [Hst Hmid].
  rewrite Hst.
  rewrite yields_forOf by (intros dl' Hdl'; now apply (Hdir thisRow s)).
  apply in_flat_map. exists dl. split; [assumption |].
  rewrite (tryDirection_in_grid p _ s m d Hm Hd).
  unfold isEmpty at 1. rewrite Hmid, Hdst. now left.
Qed.

(** ** The two files enumerate and search alike *)

Lemma gapp_cong {A} (g g' k k' : Gen A) :
  g = g' -> k = k' -> gapp g k = gapp g' k'.
Proof. now intros -> ->. Qed.

Lemma directions_agree p g s :
  forOf (fun direction => tryDirection p direction s)
        (Closures.directions g s) =
  forOf (fun d => tryDirection p (Offsets.neighbor g d) s)
        (Offsets.directions s).
Proof.
  unfold Closures.directions, Offsets.directions.
  destruct ((1 <? row s) && (col s <? row s - 2)),
    ((1 <? row s) && (1 <? col s)), (1 <? col s), (col s + 2 <=? row s),
    (row s <? N - 2); simpl;
    repeat first
      [ reflexivity
      | apply gapp_cong;
        [ apply tryDirection_ext; intros h; unfold Offsets.neighbor; simpl;
          f_equal; lia | ] ].
Qed.

Lemma possibleMoves_agree p b :
  Closures.possibleMoves p b = Offsets.possibleMoves p b.
Proof.
  unfold Closures.possibleMoves, Offsets.possibleMoves.
  apply forOf_ext. intros thisRow _.
  apply forOf_ext. intros s _.
  destruct (Int32.truthy (hasPeg p s)); [| reflexivity].
  apply directions_agree.
Qed.

Lemma firstSolution_ext r1 r2 g :
  (forall m, r1 m = r2 m) -> firstSolution r1 g = firstSolution r2 g.
Proof.
  intros H. induction g as [| m rest IH |]; simpl; auto.
  now rewrite H, IH.
Qed.

Lemma addMoves_agree b depth :
  forall p, Closures.addMoves b depth p = Offsets.addMoves b depth p.
Proof.
  induction depth as [| depth IH]; intros p; simpl; [reflexivity |].
  rewrite possibleMoves_agree. now apply firstSolution_ext.
Qed.

Lemma solve_agree p b : Closures.solve p b = Offsets.solve p b.
Proof. apply addMoves_agree. Qed.

Lemma possibleMovesOf_main v p b :
  possibleMovesOf v p b = Offsets.possibleMoves p b.
Proof. destruct v; [reflexivity | apply possibleMoves_agree]. Qed.

Lemma solveOf_main v p b : solveOf v p b = Offsets.solve p b.
Proof. destruct v; [reflexivity | apply solve_agree]. Qed.

(** ** The search loop *)

Lemma firstSolution_Solution recur g ms :
  firstSolution recur g = Solution ms ->
  exists m tail,
    ms = m :: tail /\ In m (yields g) /\ recur m = Solution tail.
Proof.
  induction g as [| m rest IH |]; simpl; try discriminate.
  destruct (recur m) as [tail | |] eqn:E; try discriminate.
  - intros H. inversion H; subst. exists m, tail. auto.
  - intros H. destruct (IH H) as (m' & tail & -> & Hin & Hr).
    exists m', tail. auto.
Qed.

Lemma firstSolution_quiet recur g :
  throws g = false ->
  (forall m, In m (yields g) -> recur m <> TypeError) ->
  firstSolution recur g <> TypeError.
Proof.
  induction g as [| m rest IH |]; simpl; intros Hq Hr; try discriminate.
  destruct (recur m) eqn:E; try discriminate.
  - apply IH; auto.
  - exfalso. apply (Hr m); auto.
Qed.

Lemma addMoves_sound b depth :
  forall p ms,
    Offsets.addMoves b depth p = Solution ms ->
    length ms = depth /\ legalFrom b p ms.
Proof.
  induction depth as [| depth IH]; intros p ms; simpl.
  - intros H. inversion H. simpl. auto.
  - intros H.
    apply firstSolution_Solution in H as (m & tail & -> & Hin & Hr).
    destruct (IH _ _ Hr) as [Hlen Hleg]. simpl. auto.
Qed.

Lemma addMoves_quiet b depth :
  safeBoard b = true ->
  forall p, Offsets.addMoves b depth p <> TypeError.
Proof.
  intros Hsafe. induction depth as [| depth IH]; intros p; simpl.
  - discriminate.
  - apply firstSolution_quiet.
    + now apply throws_possibleMoves.
    + intros m _. apply IH.
Qed.

(** ** Counting pegs *)

Section Counting.
Variable L : list Hole.
Hypothesis distinct : NoDup (map index L).

Lemma cnt_cons f a l :
  cnt f (a :: l) = (if f a then 1 else 0) + cnt f l.
Proof.
  unfold cnt. simpl. destruct (f a); simpl length; lia.
Qed.

Lemma cnt_ext f g l :
  (forall h, In h l -> g h = f h) -> cnt g l = cnt f l.
Proof.
  intros H. unfold cnt. f_equal. f_equal.
  apply filter_ext_in. assumption.
Qed.

Lemma cnt_bounds f l : 0 <= cnt f l <= Z.of_nat (length l).
Proof.
  unfold cnt. pose proof (filter_length_le f l). lia.
Qed.

Lemma cnt_has f l x : In x l -> f x = true -> 1 <= cnt f l.
Proof.
  induction l as [| a l IH]; simpl; [intros [] |].
  intros [-> | Hin] Hx; rewrite cnt_cons.
  - rewrite Hx. pose proof (cnt_bounds f l). lia.
  - specialize (IH Hin Hx). destruct (f a); lia.
Qed.

Lemma cnt_misses f l x :
  In x l -> f x = false -> cnt f l <= Z.of_nat (length l) - 1.
Proof.
  induction l as [| a l IH]; simpl length; [intros [] |].
  intros [-> | Hin] Hx; rewrite cnt_cons.
  - rewrite Hx. pose proof (cnt_bounds f l). lia.
  - specialize (IH Hin Hx). destruct (f a); lia.
Qed.

(** Flipping the answer at one hole moves the count by one. *)
Lemma cnt_flip_gen f g x l :
  NoDup (map index l) -> In x l ->
  (forall h, In h l -> g h = xorb (f h) (index h =? index x)) ->
  cnt g l = cnt f l + (if f x then -1 else 1).
Proof.
  induction l as [| a l IH]; simpl; [intros _ [] |].
  intros Hnd Hin Hg. inversion Hnd as [| ? ? Hnotin Hnd']; subst.
  rewrite !cnt_cons.
  destruct (Z.eqb_spec (index a) (index x)) as [Heq | Hne].
  - assert (a = x) as ->.
    { destruct Hin as [| Hin]; [assumption |].
      exfalso. apply Hnotin. rewrite Heq. now apply in_map. }
    rewrite (Hg x (or_introl eq_refl)), Z.eqb_refl.
    rewrite (cnt_ext f g l).
    + destruct (f x); cbn [xorb]; lia.
    + intros h Hh. rewrite (Hg h (or_intror Hh)).
      destruct (Z.eqb_spec (index h) (index x)) as [E | E].
      * exfalso. apply Hnotin. rewrite <- E. now apply in_map.
      * now rewrite Bool.xorb_false_r.
  - destruct Hin as [-> | Hin]; [congruence |].
    rewrite (Hg a (or_introl eq_refl)).
    destruct (Z.eqb_spec (index a) (index x)) as [E | _]; [congruence |].
    rewrite Bool.xorb_false_r.
    rewrite (IH Hnd' Hin (fun h Hh => Hg h (or_intror Hh))). lia.
Qed.

(** A jump flips three holes with distinct indices: two pegs go, one
    comes. *)
Lemma cnt_jump f g s m d :
  In s L -> In m L -> In d L ->
  index s <> index m -> index s <> index d -> index m <> index d ->
  f s = true -> f m = true -> f d = false ->
  (forall h, In h L ->
     g h = xorb (f h) ((index h =? index s) || (index h =? index m)
                       || (index h =? index d))) ->
  cnt g L = cnt f L - 1.
Proof.
  intros Hs Hm Hd Hsm Hsd Hmd Fs Fm Fd Hg.
  set (f1 := fun h => xorb (f h) (index h =? index s)).
  set (f2 := fun h => xorb (f1 h) (index h =? index m)).
  assert (H1 : cnt f1 L = cnt f L + (if f s then -1 else 1))
    by (apply cnt_flip_gen; auto).
  assert (H2 : cnt f2 L = cnt f1 L + (if f1 m then -1 else 1))
    by (apply cnt_flip_gen; auto).
  assert (H3 : cnt g L = cnt f2 L + (if f2 d then -1 else 1)).
  { apply cnt_flip_gen; auto. intros h Hh. rewrite (Hg h Hh).
    unfold f2, f1.
    destruct (Z.eqb_spec (index h) (index s)),
             (Z.eqb_spec (index h) (index m)),
             (Z.eqb_spec (index h) (index d));
      try congruence; destruct (f h); reflexivity. }
  assert (F1m : f1 m = true).
  { unfold f1. rewrite Fm.
    destruct (Z.eqb_spec (index m) (index s)); [congruence | reflexivity]. }
  assert (F2d : f2 d = false).
  { unfold f2, f1. rewrite Fd.
    destruct (Z.eqb_spec (index d) (index s)),
             (Z.eqb_spec (index d) (index m)); congruence || reflexivity. }
  rewrite Fs in H1. rewrite F1m in H2. rewrite F2d in H3. lia.
Qed.

End Counting.

(** ** Boards *)

Lemma directions_spec h dl :
  In dl (Offsets.directions h) <->
  (dl = Offsets.mkDelta 0 (-1) /\ col h > 1) \/
  (dl = Offsets.mkDelta 0 1 /\ col h + 2 <= row h) \/
  (dl = Offsets.mkDelta (-1) 0 /\ row h > 1 /\ col h < row h - 2) \/
  (dl = Offsets.mkDelta (-1) (-1) /\ row h > 1 /\ col h > 1) \/
  ((dl = Offsets.mkDelta 1 0 \/ dl = Offsets.mkDelta 1 1) /\ row h < N - 2).
Proof.
  unfold Offsets.directions, N. rewrite !in_app_iff.
  destruct (Z.ltb_spec 1 (col h)), (Z.leb_spec (col h + 2) (row h)),
    (Z.ltb_spec 1 (row h)), (Z.ltb_spec (col h) (row h - 2)),
    (Z.ltb_spec (row h) (5 - 2)); simpl;
    intuition (try lia; try congruence; auto).
Qed.

Lemma at_In {A} (l : list A) i x : at_ l i = Some x -> In x l.
Proof.
  unfold at_. destruct (i <? 0); [discriminate |]. apply nth_error_In.
Qed.

Lemma at_inv {A} (l : list A) i x :
  at_ l i = Some x ->
  0 <= i < Z.of_nat (length l) /\ nth_error l (Z.to_nat i) = Some x.
Proof.
  unfold at_. destruct (Z.ltb_spec i 0) as [| Hi]; [discriminate |].
  intros H. split; [| exact H].
  assert (Hlt : (Z.to_nat i < length l)%nat)
    by (apply nth_error_Some; congruence).
  lia.
Qed.

Lemma gridAt_In g r c h : gridAt g r c = Some h -> In h (concat g).
Proof.
  unfold gridAt. destruct (at_ g r) as [thisRow |] eqn:E; [| discriminate].
  intros H. apply in_concat. exists thisRow.
  split; [eapply at_In; eassumption | eapply at_In; eassumption].
Qed.

Lemma jumps_on_board b s m d :
  In (s, m, d) (jumps b) ->
  In s (holes b) /\ In m (holes b) /\ In d (holes b).
Proof.
  intros H. apply jumps_inv in H as (Hs & dl & _ & Hm & Hd).
  unfold Offsets.neighbor in *. unfold holes.
  repeat split; eauto using gridAt_In.
Qed.

Lemma NoDup_map_inj {A B} (f : A -> B) l x y :
  NoDup (map f l) -> In x l -> In y l -> f x = f y -> x = y.
Proof.
  induction l as [| a l IH]; simpl; [intros _ [] |].
  intros Hnd Hx Hy E. inversion Hnd as [| ? ? Hnotin Hnd']; subst.
  destruct Hx as [-> | Hx], Hy as [-> | Hy]; auto.
  - exfalso. apply Hnotin. rewrite E. now apply in_map.
  - exfalso. apply Hnotin. rewrite <- E. now apply in_map.
Qed.

(** The three holes of a jump are three different holes of the board, so on
    a well-formed board they carry three different indices. *)
Lemma jumps_distinct b s m d :
  wellFormed b -> In (s, m, d) (jumps b) ->
  index s <> index m /\ index s <> index d /\ index m <> index d.
Proof.
  intros (Hcoord & Hnd & _) Hj.
  pose proof (jumps_on_board _ _ _ _ Hj) as (Is & Im & Id).
  apply jumps_inv in Hj as (_ & dl & Hdl & Hm & Hd).
  unfold Offsets.neighbor in Hm, Hd.
  apply Hcoord in Hm as [Rm Cm]. apply Hcoord in Hd as [Rd Cd].
  assert (Hdelta : Offsets.rowDelta dl <> 0 \/ Offsets.colDelta dl <> 0).
  { apply directions_spec in Hdl.
    decompose [or and] Hdl; subst dl; simpl; lia. }
  repeat split; intros E.
  - apply (NoDup_map_inj index _ s m Hnd Is Im) in E. subst. lia.
  - apply (NoDup_map_inj index _ s d Hnd Is Id) in E. subst. lia.
  - apply (NoDup_map_inj index _ m d Hnd Im Id) in E. subst. lia.
Qed.

Lemma occupied_testbit p h :
  Int32.truthy (hasPeg p h) = Z.testbit (bits p) (index h mod 32).
Proof. apply Int32Facts.truthy_and_shl. Qed.

Lemma testbit_moveMask s m d i :
  0 <= i < 32 ->
  Z.testbit (moveMask s m d) i =
    (index s mod 32 =? i) || (index m mod 32 =? i) || (index d mod 32 =? i).
Proof.
  intros Hi. unfold moveMask.
  now rewrite !Int32Facts.testbit_or, !Int32Facts.testbit_shl_1.
Qed.

Lemma testbit_after_jump p s m d i :
  0 <= i < 32 ->
  Z.testbit (bits (apply (jump s m d) p)) i =
    xorb (Z.testbit (bits p) i)
         ((index s mod 32 =? i) || (index m mod 32 =? i)
          || (index d mod 32 =? i)).
Proof.
  intros Hi. simpl.
  now rewrite Int32Facts.testbit_xor, testbit_moveMask.
Qed.

Lemma occupied_after_jump b p s m d h :
  wellFormed b -> In (s, m, d) (jumps b) -> In h (holes b) ->
  Int32.truthy (hasPeg (apply (jump s m d) p) h) =
    xorb (Int32.truthy (hasPeg p h))
         ((index h =? index s) || (index h =? index m)
          || (index h =? index d)).
Proof.
  intros (_ & _ & Hrange) Hj Hh.
  apply jumps_on_board in Hj as (Hs & Hm & Hd).
  apply Hrange in Hs, Hm, Hd, Hh.
  rewrite !occupied_testbit, testbit_after_jump
    by (apply Z.mod_pos_bound; lia).
  rewrite !Z.mod_small by assumption.
  now rewrite (Z.eqb_sym (index s)), (Z.eqb_sym (index m)),
    (Z.eqb_sym (index d)).
Qed.

(** ** The standard board *)

Lemma safe_makeBoard : safeBoard makeBoard = true.
Proof. vm_compute. reflexivity. Qed.

Lemma index_makeBoard :
  map index (holes makeBoard) = [0; 1; 2; 3; 4; 5; 6; 7; 8; 9; 10; 11; 12; 13; 14].
Proof. reflexivity. Qed.

Lemma NoDup_index_makeBoard : NoDup (map index (holes makeBoard)).
Proof.
  rewrite index_makeBoard.
  repeat (constructor;
          [ simpl; intros H;
            repeat (destruct H as [H | H]; [discriminate H |]); exact H | ]).
  constructor.
Qed.

Lemma index_range h : In h (holes makeBoard) -> 0 <= index h < 15.
Proof.
  intros H. apply (in_map index) in H. rewrite index_makeBoard in H.
  simpl in H. lia.
Qed.

(** Splits a bounded integer into its possible values. *)
Ltac enumerate i H :=
  let E := fresh "E" in
  first
    [ assert (E : i = 0) by (simpl in H; lia); subst i
    | assert (E : i = 0 \/ i = 1) by (simpl in H; lia);
      destruct E as [E | E]; subst i
    | assert (E : i = 0 \/ i = 1 \/ i = 2) by (simpl in H; lia);
      destruct E as [E | [E | E]]; subst i
    | assert (E : i = 0 \/ i = 1 \/ i = 2 \/ i = 3) by (simpl in H; lia);
      destruct E as [E | [E | [E | E]]]; subst i
    | assert (E : i = 0 \/ i = 1 \/ i = 2 \/ i = 3 \/ i = 4)
        by (simpl in H; lia);
      destruct E as [E | [E | [E | [E | E]]]]; subst i ].

Lemma gridAt_makeBoard r c h :
  gridAt (grid makeBoard) r c = Some h -> row h = r /\ col h = c.
Proof.
  unfold gridAt.
  destruct (at_ (grid makeBoard) r) as [thisRow |] eqn:Hrow; [| discriminate].
  intros Hcol.
  apply at_inv in Hrow as [Hr Hrow].
  change (length (grid makeBoard)) with 5%nat in Hr.
  enumerate r Hr; vm_compute in Hrow; injection Hrow as <-;
    apply at_inv in Hcol as [Hc Hcol];
    enumerate c Hc; vm_compute in Hcol; injection Hcol as <-;
    split; reflexivity.
Qed.

Lemma wellFormed_makeBoard : wellFormed makeBoard.
Proof.
  split; [exact gridAt_makeBoard |].
  split; [exact NoDup_index_makeBoard |].
  intros h Hh. apply index_range in Hh. lia.
Qed.

Lemma pegCount_cnt p b :
  pegCount p b = cnt (fun h => Int32.truthy (hasPeg p h)) (holes b).
Proof. reflexivity. Qed.

(** A legal jump on the standard board takes exactly one peg away. *)
Lemma pegCount_jump p s m d :
  In (s, m, d) (jumps makeBoard) -> legal p (s, m, d) = true ->
  pegCount (apply (jump s m d) p) makeBoard = pegCount p makeBoard - 1.
Proof.
  intros Hj Hl. rewrite !pegCount_cnt.
  pose proof (jumps_on_board _ _ _ _ Hj) as (Hs & Hm & Hd).
  pose proof (jumps_distinct _ _ _ _ wellFormed_makeBoard Hj)
    as (Hsm & Hsd & Hmd).
  unfold legal, isEmpty in Hl.
  apply andb_prop in Hl as [Hl Ed]. apply andb_prop in Hl as [Es Em].
  apply Bool.negb_true_iff in Ed.
  apply (cnt_jump (holes makeBoard) NoDup_index_makeBoard
           (fun h => Int32.truthy (hasPeg p h)) _ s m d); auto.
  intros h Hh.
  exact (occupied_after_jump makeBoard p s m d h wellFormed_makeBoard Hj Hh).
Qed.

(** A position with a legal jump has between 2 and 14 pegs. *)
Lemma pegCount_movable p s m d :
  In (s, m, d) (jumps makeBoard) -> legal p (s, m, d) = true ->
  2 <= pegCount p makeBoard <= 14.
Proof.
  intros Hj Hl.
  pose proof (pegCount_jump p s m d Hj Hl) as Hdec.
  pose proof (jumps_on_board _ _ _ _ Hj) as (Hs & Hm & Hd).
  pose proof (jumps_distinct _ _ _ _ wellFormed_makeBoard Hj)
    as (Hsm & Hsd & Hmd).
  unfold legal, isEmpty in Hl.
  apply andb_prop in Hl as [Hl Ed]. apply andb_prop in Hl as [Es Em].
  apply Bool.negb_true_iff in Ed.
  split.
  - assert (1 <= pegCount (apply (jump s m d) p) makeBoard); [| lia].
    rewrite pegCount_cnt. apply cnt_has with d; [assumption |].
    rewrite (occupied_after_jump makeBoard p s m d d wellFormed_makeBoard
               Hj Hd), Ed, Z.eqb_refl.
    now rewrite !Bool.orb_true_r.
  - rewrite pegCount_cnt.
    pose proof (cnt_misses (fun h => Int32.truthy (hasPeg p h))
                  (holes makeBoard) d Hd Ed) as H.
    change (Z.of_nat (length (holes makeBoard))) with 15 in H. lia.
Qed.

Lemma legalFrom_pegCount ms :
  forall p, legalFrom makeBoard p ms ->
  pegCount (applyMoves ms p) makeBoard
    = pegCount p makeBoard - Z.of_nat (length ms).
Proof.
  induction ms as [| mv ms IH]; intros p; simpl legalFrom;
    cbn [applyMoves length].
  - intros _. lia.
  - intros [Hin Hrest].
    apply In_possibleMoves in Hin as (s & m & d & Hj & Hl & ->).
    rewrite (IH _ Hrest), (pegCount_jump p s m d Hj Hl). lia.
Qed.

Lemma legalFrom_enough_pegs ms :
  forall p, legalFrom makeBoard p ms -> ms <> [] ->
  Z.of_nat (length ms) + 1 <= pegCount p makeBoard <= 14.
Proof.
  induction ms as [| mv ms IH]; intros p; [congruence |].
  simpl legalFrom. cbn [length]. intros [Hin Hrest] _.
  apply In_possibleMoves in Hin as (s & m & d & Hj & Hl & ->).
  pose proof (pegCount_movable p s m d Hj Hl) as Hb.
  destruct ms as [| mv' ms'].
  - simpl length. lia.
  - assert (Hne : mv' :: ms' <> []) by discriminate.
    specialize (IH _ Hrest Hne).
    rewrite (pegCount_jump p s m d Hj Hl) in IH. lia.
Qed.

Lemma legalFrom_firstn b k :
  forall ms p, legalFrom b p ms -> legalFrom b p (firstn k ms).
Proof.
  induction k as [| k IH]; intros ms p; [simpl; trivial |].
  destruct ms as [| mv ms]; simpl; [trivial |].
  intros [Hin Hrest]. split; [assumption | now apply IH].
Qed.

(** ** What a returned solution looks like *)

Lemma legalFrom_jumps b ms :
  forall p, legalFrom b p ms -> map jumpOf (map triple ms) = ms.
Proof.
  induction ms as [| mv ms IH]; intros p; simpl; [reflexivity |].
  intros [Hin Hrest]. rewrite (IH _ Hrest).
  apply In_possibleMoves in Hin as (s & m & d & _ & _ & ->). reflexivity.
Qed.

Lemma solve_sound p ms :
  Offsets.solve p makeBoard = Solution ms ->
  length ms = 13%nat /\ legalFrom makeBoard p ms /\
  pegCount p makeBoard = 14.
Proof.
  intros H. apply addMoves_sound in H as [Hlen Hleg].
  repeat split; try assumption.
  assert (Hne : ms <> []) by (destruct ms; [discriminate Hlen | discriminate]).
  pose proof (legalFrom_enough_pegs ms p Hleg Hne) as Hb.
  rewrite Hlen in Hb. lia.
Qed.

Lemma solve_trace p ms k :
  Offsets.solve p makeBoard = Solution ms -> (k <= 13)%nat ->
  pegCount (applyMoves (firstn k ms) p) makeBoard = 14 - Z.of_nat k.
Proof.
  intros H Hk. apply solve_sound in H as (Hlen & Hleg & H14).
  rewrite (legalFrom_pegCount _ _ (legalFrom_firstn makeBoard k ms p Hleg)).
  rewrite length_firstn, Hlen, H14. lia.
Qed.

Lemma triplesOf_Solution o js :
  triplesOf o = Some js -> exists ms, o = Solution ms /\ map triple ms = js.
Proof.
  destruct o as [ms | |]; simpl; try discriminate.
  intros H. injection H as H. exists ms. auto.
Qed.

Lemma solve_standard_jumps :
  triplesOf (Offsets.solve (fullBoardWithVacancyAt 12) makeBoard)
    = Some standardJumps.
Proof. vm_compute. reflexivity. Qed.

Lemma solve_standard :
  Offsets.solve (fullBoardWithVacancyAt 12) makeBoard
    = Solution standardSolution.
Proof.
  destruct (triplesOf_Solution _ _ solve_standard_jumps) as (ms & E & H).
  rewrite E. f_equal. unfold standardSolution. rewrite <- H.
  destruct (solve_sound _ _ E) as (_ & Hleg & _).
  symmetry. exact (legalFrom_jumps _ _ _ Hleg).
Qed.

(** C1 (as stated, refuted): for the vacancy at hole 12 on the standard board
    [solve] returns a list of 13 moves, hence not one of 14 moves. *)
Lemma solve_standard_not_14_moves :
  exists ms,
    Offsets.solve (fullBoardWithVacancyAt 12) makeBoard = Solution ms /\
    length ms = 13%nat /\ length ms <> 14%nat.
Proof.
  exists standardSolution. split; [exact solve_standard |].
  split; [reflexivity | discriminate].
Qed.

(** C1 (amended): for the standard board and the full position with the
    vacancy at hole 12, [solve] (in either file) returns a solution of exactly
    13 moves; the board has 15 holes; and after [k] moves of the solution,
    for every [k] from 0 to 13, the position holds [14 - k] pegs. *)
Theorem solve_standard_13_moves (v : Variant) :
  exists ms,
    solveOf v (fullBoardWithVacancyAt 12) makeBoard = Solution ms /\
    length ms = 13%nat /\
    length (holes makeBoard) = 15%nat /\
    forall k, (k <= 13)%nat ->
      pegCount (applyMoves (firstn k ms) (fullBoardWithVacancyAt 12)) makeBoard
        = 14 - Z.of_nat k.
Proof.
  exists standardSolution. rewrite solveOf_main.
  split; [exact solve_standard |].
  split; [reflexivity |].
  split; [reflexivity |].
  intros k Hk. exact (solve_trace _ _ k solve_standard Hk).
Qed.

(** C2 (as stated, refuted): the position with pegs in holes 0 and 1 only has
    two pegs and is solved by one jump, which a search of depth
    [pegCount - 1 = 1] finds; [solve] searches to depth 13 and returns
    [null]. *)
Lemma depth_bound_is_not_pegCount :
  let p := mkPosition 3 in
  pegCount p makeBoard = 2 /\
  (exists m, Offsets.addMoves makeBoard (Z.to_nat (pegCount p makeBoard - 1)) p
               = Solution [m] /\
             pegCount (apply m p) makeBoard = 1) /\
  Offsets.solve p makeBoard = Null.
Proof.
  split; [reflexivity |]. split; [| vm_compute; reflexivity].
  exists (jump (mkHole 0 0 0) (mkHole 1 0 1) (mkHole 2 0 3)).
  split; reflexivity.
Qed.

(** C2 (amended): the depth bound of the search is the constant 13 for every
    position and board, whatever the peg count; a solution returned by
    [solve] (in either file) has exactly 13 moves; and on the standard board
    [solve] returns a solution only for positions with exactly 14 pegs, so
    that the length is then the peg count minus 1. *)
Theorem solve_depth_13 (v : Variant) (p : Position) (b : Board) :
  solveOf v p b = Offsets.addMoves b 13 p /\
  forall ms,
    solveOf v p b = Solution ms ->
    length ms = 13%nat /\
    (b = makeBoard ->
     pegCount p b = 14 /\ Z.of_nat (length ms) = pegCount p b - 1).
Proof.
  rewrite solveOf_main. split; [reflexivity |]. intros ms H.
  split; [apply (addMoves_sound _ _ _ _ H) |].
  intros ->. destruct (solve_sound _ _ H) as (Hlen & _ & H14).
  rewrite Hlen, H14. split; reflexivity.
Qed.

Lemma solve_depth_13_witness :
  solveOf OffsetPairs (fullBoardWithVacancyAt 12) makeBoard
    = Solution standardSolution /\
  length standardSolution = 13%nat /\
  pegCount (fullBoardWithVacancyAt 12) makeBoard = 14.
Proof.
  assert (H : solveOf OffsetPairs (fullBoardWithVacancyAt 12) makeBoard
              = Solution standardSolution) by apply solve_standard.
  split; [exact H |].
  destruct (solve_depth_13 OffsetPairs (fullBoardWithVacancyAt 12) makeBoard)
    as (_ & Hsol).
  destruct (Hsol _ H) as (Hlen & Hb).
  split; [exact Hlen | apply (Hb eq_refl)].
Defined.

(** C8: whenever [solve] (in either file) returns a solution for a position
    of the standard board, each move applied in order leaves exactly one peg
    fewer than before it, and the position after the last move has exactly
    one occupied hole. *)
Theorem solution_removes_one_peg_per_move (v : Variant) (p : Position)
    (ms : list Move) :
  solveOf v p makeBoard = Solution ms ->
  (forall k, (k < length ms)%nat ->
     pegCount (applyMoves (firstn (S k) ms) p) makeBoard
       = pegCount (applyMoves (firstn k ms) p) makeBoard - 1) /\
  pegCount (applyMoves ms p) makeBoard = 1.
Proof.
  rewrite solveOf_main. intros H.
  pose proof (solve_sound _ _ H) as (Hlen & Hleg & H14).
  split.
  - intros k Hk. rewrite Hlen in Hk.
    rewrite !(solve_trace p ms) by (assumption || lia). lia.
  - rewrite (legalFrom_pegCount _ _ Hleg), Hlen, H14. reflexivity.
Qed.

Lemma solution_removes_one_peg_per_move_witness :
  solveOf NeighborClosures (fullBoardWithVacancyAt 12) makeBoard
    = Solution standardSolution /\
  pegCount (applyMoves standardSolution (fullBoardWithVacancyAt 12)) makeBoard
    = 1.
Proof.
  assert (H : solveOf NeighborClosures (fullBoardWithVacancyAt 12) makeBoard
              = Solution standardSolution)
    by (rewrite solveOf_main; apply solve_standard).
  split; [exact H |].
  apply (solution_removes_one_peg_per_move NeighborClosures _ _ H).
Defined.

(** ** Building the initial position *)

Lemma vacancy_cases k :
  0 <= k < 32 ->
  let p := mkPosition (Int32.xor (Int32.wrap (Z.shiftl 1 k)) 32767) in
  (k < 15 ->
   bits p = 32767 - 2 ^ k /\ pegCount p makeBoard = 14 /\
   forallb (fun h => Bool.eqb (isEmpty p h) (index h =? k))
           (holes makeBoard) = true) /\
  (15 <= k ->
   bits p = Int32.wrap (32767 + 2 ^ k) /\ pegCount p makeBoard = 15 /\
   Z.testbit (bits p) k = true /\ (bits p <? 0) || (2 ^ 15 <=? bits p) = true).
Proof.
  intros Hk.
  assert (H : k = 0 \/ k = 1 \/ k = 2 \/ k = 3 \/ k = 4 \/ k = 5 \/ k = 6 \/
              k = 7 \/ k = 8 \/ k = 9 \/ k = 10 \/ k = 11 \/ k = 12 \/
              k = 13 \/ k = 14 \/ k = 15 \/ k = 16 \/ k = 17 \/ k = 18 \/
              k = 19 \/ k = 20 \/ k = 21 \/ k = 22 \/ k = 23 \/ k = 24 \/
              k = 25 \/ k = 26 \/ k = 27 \/ k = 28 \/ k = 29 \/ k = 30 \/
              k = 31) by lia.
  repeat (destruct H as [-> | H]); try subst k;
    (split; intros Hcase; [try lia | try lia]);
    vm_compute; repeat split; reflexivity.
Qed.

(** C3 (as stated, refuted): indices 15 and -1 are accepted; the results have
    every hole of the board occupied, and bit 15, respectively the sign
    bit reached by the wrapped shift count, set. *)
Lemma vacancy_out_of_range_accepted :
  fullBoardWithVacancyAt 15 = mkPosition 65535 /\
  Z.testbit (bits (fullBoardWithVacancyAt 15)) 15 = true /\
  pegCount (fullBoardWithVacancyAt 15) makeBoard = 15 /\
  fullBoardWithVacancyAt (-1) = mkPosition (-2147450881) /\
  Z.testbit (bits (fullBoardWithVacancyAt (-1))) 31 = true /\
  pegCount (fullBoardWithVacancyAt (-1)) makeBoard = 15.
Proof. vm_compute. repeat split; reflexivity. Qed.

(** C3 (amended): [fullBoardWithVacancyAt] rejects no index.  With [k] the
    index modulo 32, which is the shift count actually used: when [k < 15]
    (so for every index in [0, 15)) the result is the 15-bit full mask with
    exactly hole [k] vacant and no higher bit set; when [k >= 15] (so for
    index 15, and for index -1 where [k = 31]) all 15 holes are occupied and
    the unused bit [k] is set, so the mask lies outside [0, 2^15). *)
Theorem fullBoardWithVacancyAt_unchecked (i : Z) :
  let k := i mod 32 in
  let p := fullBoardWithVacancyAt i in
  (k < 15 ->
   bits p = 32767 - 2 ^ k /\ 0 <= bits p < 2 ^ 15 /\
   pegCount p makeBoard = 14 /\
   forall h, In h (holes makeBoard) -> isEmpty p h = (index h =? k)) /\
  (15 <= k ->
   bits p = Int32.wrap (32767 + 2 ^ k) /\ ~ (0 <= bits p < 2 ^ 15) /\
   pegCount p makeBoard = 15 /\ Z.testbit (bits p) k = true).
Proof.
  intros k p.
  assert (Hk : 0 <= k < 32) by (apply Z.mod_pos_bound; lia).
  destruct (vacancy_cases k Hk) as [Hlow Hhigh].
  change p with (mkPosition (Int32.xor (Int32.wrap (Z.shiftl 1 k)) 32767)).
  split; intros Hcase.
  - destruct (Hlow Hcase) as (Hbits & Hcount & Hall).
    split; [exact Hbits |]. split; [| split; [exact Hcount |]].
    + rewrite Hbits.
      assert (0 < 2 ^ k) by (apply Z.pow_pos_nonneg; lia).
      assert (2 ^ k <= 2 ^ 14) by (apply Z.pow_le_mono_r; lia).
      lia.
    + intros h Hh. rewrite forallb_forall in Hall.
      apply Bool.eqb_prop. now apply Hall.
  - destruct (Hhigh Hcase) as (Hbits & Hcount & Hbit & Hout).
    split; [exact Hbits |]. split; [| split; assumption].
    apply Bool.orb_true_iff in Hout as [Hout | Hout]; lia.
Qed.

Lemma fullBoardWithVacancyAt_unchecked_witness :
  bits (fullBoardWithVacancyAt 12) = 32767 - 2 ^ 12 /\
  pegCount (fullBoardWithVacancyAt 12) makeBoard = 14 /\
  isEmpty (fullBoardWithVacancyAt 12) (mkHole 4 2 12) = true.
Proof.
  destruct (fullBoardWithVacancyAt_unchecked 12) as [Hlow _].
  assert (Hk : 12 mod 32 < 15) by (vm_compute; reflexivity).
  destruct (Hlow Hk) as (Hbits & _ & Hcount & Hholes).
  split; [exact Hbits |]. split; [exact Hcount |].
  apply (Hholes (mkHole 4 2 12)).
  vm_compute. repeat (first [left; reflexivity | right]).
Defined.

(** ** Degenerate positions *)

Lemma possibleMoves_none p :
  pegCount p makeBoard <= 1 -> Offsets.possibleMoves p makeBoard = Done.
Proof.
  intros H. apply quiet_empty_Done.
  - apply throws_possibleMoves, safe_makeBoard.
  - destruct (yields (Offsets.possibleMoves p makeBoard)) as [| mv l] eqn:E;
      [reflexivity |].
    assert (Hin : In mv (yields (Offsets.possibleMoves p makeBoard)))
      by (rewrite E; now left).
    apply In_possibleMoves in Hin as (s & m & d & Hj & Hl & _).
    pose proof (pegCount_movable p s m d Hj Hl). lia.
Qed.

(** C4 (as stated, refuted): the position whose only peg is in hole 0 has one
    peg, and [solve] returns [null] for it, not the empty list. *)
Lemma one_peg_gives_null :
  pegCount (mkPosition 1) makeBoard = 1 /\
  Offsets.solve (mkPosition 1) makeBoard = Null /\
  Offsets.solve (mkPosition 1) makeBoard <> Solution [].
Proof.
  split; [reflexivity |].
  assert (H : Offsets.solve (mkPosition 1) makeBoard = Null)
    by (vm_compute; reflexivity).
  split; [exact H |]. rewrite H. discriminate.
Qed.

(** C4 (amended): on the standard board [solve] (in either file) never
    throws, whatever the position; for a position with zero or one peg it
    returns [null], the failure value, and not the empty solution; and
    whenever it returns no solution it returns [null], which is distinct
    from every solution. *)
Theorem solve_null_not_exception (v : Variant) (p : Position) :
  solveOf v p makeBoard <> TypeError /\
  (pegCount p makeBoard <= 1 -> solveOf v p makeBoard = Null) /\
  ((forall ms, solveOf v p makeBoard <> Solution ms) ->
   solveOf v p makeBoard = Null) /\
  (forall ms, Null <> Solution ms).
Proof.
  rewrite solveOf_main.
  assert (Hq : Offsets.solve p makeBoard <> TypeError)
    by apply addMoves_quiet, safe_makeBoard.
  split; [exact Hq |]. split; [| split; [| discriminate]].
  - intros H. unfold Offsets.solve. simpl.
    now rewrite (possibleMoves_none p H).
  - intros H. destruct (Offsets.solve p makeBoard) as [ms | |];
      [destruct (H ms eq_refl) | reflexivity | destruct (Hq eq_refl)].
Qed.

Lemma solve_null_not_exception_witness :
  pegCount (mkPosition 0) makeBoard <= 1 /\
  solveOf OffsetPairs (mkPosition 0) makeBoard = Null.
Proof.
  assert (H : pegCount (mkPosition 0) makeBoard <= 1)
    by (vm_compute; discriminate).
  split; [exact H |].
  destruct (solve_null_not_exception OffsetPairs (mkPosition 0))
    as (_ & Hnull & _).
  exact (Hnull H).
Defined.

(** ** Which jumps are generated *)

Lemma no_upwardFromEdge j :
  In j (jumps makeBoard) -> upwardFromEdge j = false.
Proof.
  intros H.
  assert (Hall : forallb (fun j => negb (upwardFromEdge j)) (jumps makeBoard)
                 = true) by (vm_compute; reflexivity).
  rewrite forallb_forall in Hall. apply Bool.negb_true_iff. now apply Hall.
Qed.

(** C5: in the position with pegs in holes (2,0) and (1,0) only, the jump
    from (2,0) over (1,0) into the empty hole (0,0) has its three holes on
    the board, a peg on start and middle and none on the destination, yet is
    not among the moves enumerated (in either file).  No enumerated move
    jumps upward from a hole with [col = row - 2], whatever the position;
    the opposite, downward jump into such a hole is enumerated as soon as
    it is legal. *)
Theorem upward_jump_missing_at_edge (v : Variant) :
  (let p := mkPosition 10 in
   let s := mkHole 2 0 3 in
   let m := mkHole 1 0 1 in
   let d := mkHole 0 0 0 in
   gridAt (grid makeBoard) 2 0 = Some s /\
   gridAt (grid makeBoard) 1 0 = Some m /\
   gridAt (grid makeBoard) 0 0 = Some d /\
   Int32.truthy (hasPeg p s) = true /\
   Int32.truthy (hasPeg p m) = true /\
   isEmpty p d = true /\
   forall mv, In mv (yields (possibleMovesOf v p makeBoard)) ->
     ~ (start mv = s /\ middle mv = m /\ destination mv = d)) /\
  (forall p mv, In mv (yields (possibleMovesOf v p makeBoard)) ->
     col (start mv) = row (start mv) - 2 ->
     ~ (row (middle mv) = row (start mv) - 1 /\
        col (middle mv) = col (start mv))) /\
  (forall p s, In s (holes makeBoard) -> col s = row s - 2 ->
     exists m d,
       gridAt (grid makeBoard) (row s - 1) (col s) = Some m /\
       gridAt (grid makeBoard) (row s - 2) (col s) = Some d /\
       (Int32.truthy (hasPeg p d) = true ->
        Int32.truthy (hasPeg p m) = true ->
        isEmpty p s = true ->
        In (jump d m s) (yields (possibleMovesOf v p makeBoard)))).
Proof.
  assert (Hup : forall p mv,
            In mv (yields (possibleMovesOf v p makeBoard)) ->
            col (start mv) = row (start mv) - 2 ->
            ~ (row (middle mv) = row (start mv) - 1 /\
               col (middle mv) = col (start mv))).
  { intros p mv Hin Hcol [Hr Hc]. rewrite possibleMovesOf_main in Hin.
    apply In_possibleMoves in Hin as (s & m & d & Hj & _ & ->).
    simpl in Hcol, Hr, Hc.
    pose proof (no_upwardFromEdge _ Hj) as Hno. unfold upwardFromEdge in Hno.
    destruct (Z.eqb_spec (col s) (row s - 2)),
             (Z.eqb_spec (row m) (row s - 1)),
             (Z.eqb_spec (col m) (col s)); try discriminate; contradiction. }
  split; [| split; [exact Hup |]].
  - intros p s m d. repeat (split; [reflexivity |]).
    intros mv Hin (Hs & Hm & _).
    apply (Hup p mv Hin); rewrite Hs; [| rewrite Hm]; simpl; auto.
  - intros p s Hs Hcol.
    assert (Hcases : s = mkHole 2 0 3 \/ s = mkHole 3 1 7 \/ s = mkHole 4 2 12).
    { vm_compute in Hs.
      repeat (destruct Hs as [<- | Hs]; [simpl in Hcol; try lia; auto |]).
      destruct Hs. }
    destruct Hcases as [-> | [-> | ->]];
      (eexists; eexists;
       split; [vm_compute; reflexivity |];
       split; [vm_compute; reflexivity |];
       intros Hd Hm Hempty; rewrite possibleMovesOf_main;
       apply possibleMoves_In;
       [ exact safe_makeBoard
       | vm_compute; repeat (first [left; reflexivity | right])
       | unfold legal; rewrite Hd, Hm, Hempty; reflexivity ]).
Qed.

Lemma upward_jump_missing_at_edge_witness :
  In (mkHole 2 0 3) (holes makeBoard) /\
  Int32.truthy (hasPeg (mkPosition 3) (mkHole 0 0 0)) = true /\
  Int32.truthy (hasPeg (mkPosition 3) (mkHole 1 0 1)) = true /\
  isEmpty (mkPosition 3) (mkHole 2 0 3) = true /\
  exists m d,
    gridAt (grid makeBoard) 1 0 = Some m /\
    gridAt (grid makeBoard) 0 0 = Some d /\
    In (jump d m (mkHole 2 0 3))
       (yields (possibleMovesOf OffsetPairs (mkPosition 3) makeBoard)).
Proof.
  assert (Hs : In (mkHole 2 0 3) (holes makeBoard))
    by (vm_compute; repeat (first [left; reflexivity | right])).
  split; [exact Hs |]. repeat (split; [reflexivity |]).
  destruct (upward_jump_missing_at_edge OffsetPairs) as (_ & _ & Hdown).
  destruct (Hdown (mkPosition 3) (mkHole 2 0 3) Hs eq_refl)
    as (m & d & Hm & Hd & Hin).
  exists m, d. split; [exact Hm |]. split; [exact Hd |].
  vm_compute in Hm. vm_compute in Hd.
  injection Hm as <-. injection Hd as <-.
  apply Hin; reflexivity.
Defined.

(** ** What a move does *)

(** C6: for every position and board, every move enumerated (in either file)
    has a peg on its start and middle holes and none on its destination in
    that position; on a board that keeps the board invariant, such as the
    standard board, its three holes have three different indices, and
    applying it to the position toggles exactly the bits at those indices
    and no other of the 32 bits, so that start and middle become empty and
    the destination becomes occupied. *)
Theorem move_toggles_three_bits (v : Variant) (p : Position) (b : Board)
    (mv : Move) :
  In mv (yields (possibleMovesOf v p b)) ->
  Int32.truthy (hasPeg p (start mv)) = true /\
  Int32.truthy (hasPeg p (middle mv)) = true /\
  isEmpty p (destination mv) = true /\
  (wellFormed b ->
   (index (start mv) <> index (middle mv) /\
    index (start mv) <> index (destination mv) /\
    index (middle mv) <> index (destination mv)) /\
   (forall i, 0 <= i < 32 ->
      Z.testbit (bits (apply mv p)) i =
        if (i =? index (start mv)) || (i =? index (middle mv))
           || (i =? index (destination mv))
        then negb (Z.testbit (bits p) i)
        else Z.testbit (bits p) i) /\
   isEmpty (apply mv p) (start mv) = true /\
   isEmpty (apply mv p) (middle mv) = true /\
   Int32.truthy (hasPeg (apply mv p) (destination mv)) = true).
Proof.
  rewrite possibleMovesOf_main. intros Hin.
  apply In_possibleMoves in Hin as (s & m & d & Hj & Hl & ->).
  cbn [start middle destination jump].
  unfold legal in Hl.
  apply andb_prop in Hl as [Hl Ed]. apply andb_prop in Hl as [Es Em].
  repeat (split; [assumption |]).
  intros Hwf.
  pose proof (jumps_distinct _ _ _ _ Hwf Hj) as (Hsm & Hsd & Hmd).
  pose proof (jumps_on_board _ _ _ _ Hj) as (Hs & Hm & Hd).
  pose proof Hwf as (_ & _ & Hrange).
  pose proof (Hrange _ Hs) as Rs.
  pose proof (Hrange _ Hm) as Rm.
  pose proof (Hrange _ Hd) as Rd.
  split; [auto |]. split.
  { intros i Hi.
    rewrite (testbit_after_jump p s m d i) by lia.
    rewrite !Z.mod_small by assumption.
    rewrite (Z.eqb_sym (index s)), (Z.eqb_sym (index m)),
      (Z.eqb_sym (index d)).
    destruct ((i =? index s) || (i =? index m) || (i =? index d));
      [apply Bool.xorb_true_r | apply Bool.xorb_false_r]. }
  unfold isEmpty in *.
  rewrite !(occupied_after_jump b p s m d) by assumption.
  apply Bool.negb_true_iff in Ed. rewrite Es, Em, Ed, !Z.eqb_refl.
  destruct (Z.eqb_spec (index m) (index s)); [congruence |].
  destruct (Z.eqb_spec (index d) (index s)); [congruence |].
  destruct (Z.eqb_spec (index d) (index m)); [congruence |].
  repeat split; reflexivity.
Qed.

Lemma move_toggles_three_bits_witness :
  let p := fullBoardWithVacancyAt 12 in
  let mv := jump (mkHole 2 0 3) (mkHole 3 1 7) (mkHole 4 2 12) in
  In mv (yields (possibleMovesOf OffsetPairs p makeBoard)) /\
  wellFormed makeBoard /\
  isEmpty p (destination mv) = true /\
  isEmpty (apply mv p) (start mv) = true /\
  Int32.truthy (hasPeg (apply mv p) (destination mv)) = true.
Proof.
  intros p mv.
  assert (Hin : In mv (yields (possibleMovesOf OffsetPairs p makeBoard))).
  { apply possibleMoves_In;
      [ exact safe_makeBoard
      | vm_compute; repeat (first [left; reflexivity | right])
      | reflexivity ]. }
  split; [exact Hin |].
  destruct (move_toggles_three_bits OffsetPairs p makeBoard mv Hin)
    as (_ & _ & Hd & Hstd).
  destruct (Hstd wellFormed_makeBoard) as (_ & _ & Hs' & _ & Hd').
  split; [exact wellFormed_makeBoard |].
  split; [exact Hd |]. split; [exact Hs' | exact Hd'].
Defined.

(** C7: for every position (a 32-bit value, as the bit operators produce)
    and every move enumerated for it (in either file, on any board),
    applying the move twice gives back the position. *)
Theorem apply_twice_is_identity (v : Variant) (p : Position) (b : Board)
    (mv : Move) :
  Int32.inRange (bits p) ->
  In mv (yields (possibleMovesOf v p b)) ->
  apply mv (apply mv p) = p.
Proof.
  rewrite possibleMovesOf_main. intros Hp Hin.
  apply In_possibleMoves in Hin as (s & m & d & _ & _ & ->).
  destruct p as [z]. simpl in *.
  now rewrite Int32Facts.xor_xor, Int32Facts.wrap_small.
Qed.

Lemma apply_twice_is_identity_witness :
  let p := fullBoardWithVacancyAt 12 in
  let mv := jump (mkHole 2 0 3) (mkHole 3 1 7) (mkHole 4 2 12) in
  Int32.inRange (bits p) /\
  In mv (yields (possibleMovesOf NeighborClosures p makeBoard)) /\
  apply mv (apply mv p) = p.
Proof.
  intros p mv.
  assert (Hbits : bits p = 28671) by (vm_compute; reflexivity).
  assert (Hp : Int32.inRange (bits p))
    by (unfold Int32.inRange; rewrite Hbits; lia).
  assert (Hin : In mv (yields (possibleMovesOf NeighborClosures p makeBoard))).
  { rewrite possibleMovesOf_main. apply possibleMoves_In;
      [ exact safe_makeBoard
      | vm_compute; repeat (first [left; reflexivity | right])
      | reflexivity ]. }
  split; [exact Hp |]. split; [exact Hin |].
  exact (apply_twice_is_identity NeighborClosures p makeBoard mv Hp Hin).
Defined.

(** ** The two files *)

(** C9: the file that yields offset pairs and the file that yields neighbour
    closures behave alike: for every position and board they enumerate the
    same moves (same start, middle, destination and same [apply]) in the
    same order, with the same outcome when a grid read fails, and their
    [solve] functions return equal results. *)
Theorem variants_agree (p : Position) (b : Board) :
  Closures.possibleMoves p b = Offsets.possibleMoves p b /\
  Closures.solve p b = Offsets.solve p b.
Proof.
  split; [apply possibleMoves_agree | apply solve_agree].
Qed.

(** ** Grid reads stay inside the triangle *)

Lemma inTriangle_spec h :
  inTriangle h = true -> 0 <= col h <= row h /\ row h < N.
Proof.
  unfold inTriangle. intros H.
  apply andb_prop in H as [H H3]. apply andb_prop in H as [H1 H2].
  lia.
Qed.

Lemma directions_related g s :
  Forall2 (fun f dl => forall h, f h = Offsets.neighbor g dl h)
          (Closures.directions g s) (Offsets.directions s).
Proof.
  unfold Closures.directions, Offsets.directions.
  repeat apply Forall2_app;
    match goal with
    | |- Forall2 _ (if ?c then _ else _) _ => destruct c
    end;
    repeat constructor;
    intros h; unfold Offsets.neighbor; simpl; f_equal; lia.
Qed.

Lemma Forall2_In_left {A B} (R : A -> B -> Prop) l1 l2 :
  Forall2 R l1 l2 -> forall a, In a l1 -> exists b, In b l2 /\ R a b.
Proof.
  induction 1 as [| x y l1 l2 Hxy _ IH]; intros a; simpl; [intros [] |].
  intros [<- | Hin].
  - exists y. auto.
  - destruct (IH a Hin) as (b' & Hb' & Hr). exists b'. auto.
Qed.

(** C10: at every hole of the 5-row board and for every direction whose
    boundary condition holds there (left: [col > 1]; right:
    [col + 2 <= row]; up: [row > 1] and [col < row - 2]; up-left: [row > 1]
    and [col > 1]; down and down-right: [row < N - 2]), the grid holds a
    middle hole one step away and a destination hole two steps away, both
    inside the triangle; so the enumeration (in either file) never reads a
    missing row or column, whatever the position. *)
Theorem directions_stay_in_grid :
  (forall h dl,
     In h (holes makeBoard) ->
     ((dl = Offsets.mkDelta 0 (-1) /\ col h > 1) \/
      (dl = Offsets.mkDelta 0 1 /\ col h + 2 <= row h) \/
      (dl = Offsets.mkDelta (-1) 0 /\ row h > 1 /\ col h < row h - 2) \/
      (dl = Offsets.mkDelta (-1) (-1) /\ row h > 1 /\ col h > 1) \/
      ((dl = Offsets.mkDelta 1 0 \/ dl = Offsets.mkDelta 1 1) /\
       row h < N - 2)) ->
     In dl (Offsets.directions h) /\
     exists m d,
       Offsets.neighbor (grid makeBoard) dl h = Some m /\
       Offsets.neighbor (grid makeBoard) dl m = Some d /\
       row m = row h + Offsets.rowDelta dl /\
       col m = col h + Offsets.colDelta dl /\
       0 <= col m <= row m /\ row m < N /\
       row d = row h + 2 * Offsets.rowDelta dl /\
       col d = col h + 2 * Offsets.colDelta dl /\
       0 <= col d <= row d /\ row d < N) /\
  (forall h direction,
     In h (holes makeBoard) ->
     In direction (Closures.directions (grid makeBoard) h) ->
     exists m d, direction h = Some m /\ direction m = Some d) /\
  (forall v p, throws (possibleMovesOf v p makeBoard) = false).
Proof.
  assert (Hall : forall h dl,
            In h (holes makeBoard) -> In dl (Offsets.directions h) ->
            stepsInBounds (grid makeBoard) h dl = true).
  { assert (H : forallb (fun h =>
                  forallb (stepsInBounds (grid makeBoard) h)
                          (Offsets.directions h)) (holes makeBoard) = true)
      by (vm_compute; reflexivity).
    intros h dl Hh Hdl. rewrite forallb_forall in H. specialize (H h Hh).
    rewrite forallb_forall in H. now apply H. }
  split; [| split].
  - intros h dl Hh Hcond. apply directions_spec in Hcond.
    split; [exact Hcond |].
    specialize (Hall h dl Hh Hcond). unfold stepsInBounds in Hall.
    destruct (Offsets.neighbor (grid makeBoard) dl h) as [m |] eqn:Hm;
      [| discriminate].
    destruct (Offsets.neighbor (grid makeBoard) dl m) as [d |] eqn:Hd;
      [| discriminate].
    repeat (apply andb_prop in Hall as [Hall ?]).
    exists m, d.
    repeat match goal with
           | H : inTriangle _ = true |- _ => apply inTriangle_spec in H
           end.
    repeat split; try reflexivity; try assumption; lia.
  - intros h f Hh Hf.
    destruct (Forall2_In_left _ _ _ (directions_related (grid makeBoard) h)
                f Hf) as (dl & Hdl & Hrel).
    specialize (Hall h dl Hh Hdl). unfold stepsInBounds in Hall.
    destruct (Offsets.neighbor (grid makeBoard) dl h) as [m |] eqn:Hm;
      [| discriminate].
    destruct (Offsets.neighbor (grid makeBoard) dl m) as [d |] eqn:Hd;
      [| discriminate].
    exists m, d. rewrite !Hrel. split; assumption.
  - intros v p. rewrite possibleMovesOf_main.
    apply throws_possibleMoves, safe_makeBoard.
Qed.

Lemma directions_stay_in_grid_witness :
  In (mkHole 3 0 6) (holes makeBoard) /\
  exists m d,
    Offsets.neighbor (grid makeBoard) (Offsets.mkDelta (-1) 0) (mkHole 3 0 6)
      = Some m /\
    Offsets.neighbor (grid makeBoard) (Offsets.mkDelta (-1) 0) m = Some d /\
    0 <= col m <= row m /\ row m < N /\ 0 <= col d <= row d /\ row d < N.
Proof.
  assert (Hh : In (mkHole 3 0 6) (holes makeBoard))
    by (vm_compute; repeat (first [left; reflexivity | right])).
  split; [exact Hh |].
  destruct directions_stay_in_grid as (Hin & _ & _).
  destruct (Hin (mkHole 3 0 6) (Offsets.mkDelta (-1) 0) Hh)
    as (_ & m & d & Hm & Hd & _ & _ & Tm & Nm & _ & _ & Td & Nd).
  { right. right. left. simpl. repeat split; lia. }
  exists m, d. repeat split; try assumption; lia.
Defined.

(** ** More on the search *)

Lemma firstSolution_Null recur g :
  firstSolution recur g = Null ->
  throws g = false /\ forall m, In m (yields g) -> recur m = Null.
Proof.
  induction g as [| m rest IH |]; simpl; try discriminate.
  - intros _. split; [reflexivity | intros m []].
  - destruct (recur m) eqn:E; try discriminate.
    intros H. destruct (IH H) as [Hq Hall].
    split; [exact Hq |]. intros m' [<- | Hin]; auto.
Qed.

Lemma firstSolution_first recur g m tail :
  firstSolution recur g = Solution (m :: tail) ->
  exists pre post,
    yields g = pre ++ m :: post /\
    (forall m', In m' pre -> recur m' = Null) /\
    recur m = Solution tail.
Proof.
  induction g as [| m0 rest IH |]; simpl; try discriminate.
  destruct (recur m0) as [tail0 | |] eqn:E; try discriminate.
  - intros H. inversion H; subst. exists [], (yields rest).
    split; [reflexivity |]. split; [intros m' [] | exact E].
  - intros H. destruct (IH H) as (pre & post & Hy & Hpre & Hm).
    exists (m0 :: pre), post. rewrite Hy.
    split; [reflexivity |]. split; [| exact Hm].
    intros m' [<- | Hin]; auto.
Qed.

Lemma addMoves_Null_no_sequence b depth :
  forall p, Offsets.addMoves b depth p = Null ->
  forall ms, legalFrom b p ms -> length ms <> depth.
Proof.
  induction depth as [| depth IH]; intros p; simpl; [discriminate |].
  intros H ms Hleg Hlen.
  apply firstSolution_Null in H as [_ Hall].
  destruct ms as [| m ms]; [discriminate Hlen |].
  destruct Hleg as [Hin Hrest].
  apply (IH _ (Hall m Hin) ms Hrest). now injection Hlen.
Qed.

(** X1: a list returned by [addMoves] has as many moves as the depth asked
    for, and each of its moves is one that [possibleMoves] yields for the
    position reached by the moves before it. *)
Theorem addMoves_returns_legal_sequence (b : Board) (depth : nat)
    (p : Position) (ms : list Move) :
  Offsets.addMoves b depth p = Solution ms ->
  length ms = depth /\
  forall k m, nth_error ms k = Some m ->
    In m (yields (Offsets.possibleMoves (applyMoves (firstn k ms) p) b)).
Proof.
  intros H. apply addMoves_sound in H as [Hlen Hleg].
  split; [exact Hlen |]. clear Hlen.
  revert p Hleg. induction ms as [| m0 ms IH]; intros p Hleg k m Hk.
  - destruct k; discriminate Hk.
  - destruct Hleg as [Hin Hrest]. destruct k as [| k]; simpl in Hk |- *.
    + now injection Hk as <-.
    + now apply IH.
Qed.

Lemma addMoves_returns_legal_sequence_witness :
  Offsets.addMoves makeBoard 1 (mkPosition 3)
    = Solution [jump (mkHole 0 0 0) (mkHole 1 0 1) (mkHole 2 0 3)] /\
  In (jump (mkHole 0 0 0) (mkHole 1 0 1) (mkHole 2 0 3))
     (yields (Offsets.possibleMoves (mkPosition 3) makeBoard)).
Proof.
  assert (H : Offsets.addMoves makeBoard 1 (mkPosition 3)
              = Solution [jump (mkHole 0 0 0) (mkHole 1 0 1) (mkHole 2 0 3)])
    by reflexivity.
  split; [exact H |].
  destruct (addMoves_returns_legal_sequence _ _ _ _ H) as [_ Hall].
  exact (Hall 0%nat _ eq_refl).
Defined.

(** X2: the search is exhaustive.  On a board whose directions never leave
    the grid, [addMoves] returns [null] exactly when no sequence of [depth]
    successively enumerated moves exists from the position; so whenever such
    a sequence exists it returns a solution. *)
Theorem addMoves_null_iff_no_sequence (b : Board) (depth : nat)
    (p : Position) :
  safeBoard b = true ->
  (Offsets.addMoves b depth p = Null <->
   forall ms, legalFrom b p ms -> length ms <> depth).
Proof.
  intros Hsafe. split.
  - apply addMoves_Null_no_sequence.
  - intros Hnone.
    destruct (Offsets.addMoves b depth p) as [ms | |] eqn:E.
    + apply addMoves_sound in E as [Hlen Hleg].
      destruct (Hnone ms Hleg Hlen).
    + reflexivity.
    + destruct (addMoves_quiet b depth Hsafe p E).
Qed.

Lemma addMoves_null_iff_no_sequence_witness :
  safeBoard makeBoard = true /\
  Offsets.addMoves makeBoard 2 (mkPosition 3) = Null /\
  forall ms, legalFrom makeBoard (mkPosition 3) ms -> length ms <> 2%nat.
Proof.
  assert (Hsafe : safeBoard makeBoard = true) by (vm_compute; reflexivity).
  assert (H : Offsets.addMoves makeBoard 2 (mkPosition 3) = Null)
    by (vm_compute; reflexivity).
  split; [exact Hsafe |]. split; [exact H |].
  apply (addMoves_null_iff_no_sequence makeBoard 2 (mkPosition 3) Hsafe).
  exact H.
Defined.

(** X3: the solution returned is the first one in enumeration order.  When
    [addMoves] returns a list starting with move [m], every move that
    [possibleMoves] yields before [m] was tried and led to [null], and the
    rest of the list is what the recursive call returned after [m]. *)
Theorem addMoves_takes_first_success (b : Board) (depth : nat)
    (p : Position) (m : Move) (tail : list Move) :
  Offsets.addMoves b (S depth) p = Solution (m :: tail) ->
  exists pre post,
    yields (Offsets.possibleMoves p b) = pre ++ m :: post /\
    (forall m', In m' pre -> Offsets.addMoves b depth (apply m' p) = Null) /\
    Offsets.addMoves b depth (apply m p) = Solution tail.
Proof.
  simpl. intros H. now apply firstSolution_first in H.
Qed.

Lemma addMoves_takes_first_success_witness :
  let m := jump (mkHole 0 0 0) (mkHole 1 0 1) (mkHole 2 0 3) in
  Offsets.addMoves makeBoard 1 (mkPosition 3) = Solution [m] /\
  exists pre post,
    yields (Offsets.possibleMoves (mkPosition 3) makeBoard)
      = pre ++ m :: post /\
    Offsets.addMoves makeBoard 0 (apply m (mkPosition 3)) = Solution [].
Proof.
  intros m.
  assert (H : Offsets.addMoves makeBoard 1 (mkPosition 3) = Solution [m])
    by reflexivity.
  split; [exact H |].
  destruct (addMoves_takes_first_success _ _ _ _ _ H)
    as (pre & post & Hy & _ & Ht).
  exists pre, post. split; [exact Hy | exact Ht].
Defined.

(** ** More on single moves *)

(** X4: on the standard board every move that [possibleMoves] yields (in
    either file) leaves exactly one peg fewer when applied to the position
    it was enumerated for; and a position for which any move is yielded
    holds between 2 and 14 pegs, so the full board and every board with at
    most one peg yield nothing. *)
Theorem move_removes_one_peg (v : Variant) (p : Position) (mv : Move) :
  In mv (yields (possibleMovesOf v p makeBoard)) ->
  pegCount (apply mv p) makeBoard = pegCount p makeBoard - 1 /\
  2 <= pegCount p makeBoard <= 14.
Proof.
  rewrite possibleMovesOf_main. intros Hin.
  apply In_possibleMoves in Hin as (s & m & d & Hj & Hl & ->).
  split; [now apply pegCount_jump | now apply (pegCount_movable p s m d)].
Qed.

Lemma move_removes_one_peg_witness :
  let p := mkPosition 3 in
  let mv := jump (mkHole 0 0 0) (mkHole 1 0 1) (mkHole 2 0 3) in
  In mv (yields (possibleMovesOf NeighborClosures p makeBoard)) /\
  pegCount (apply mv p) makeBoard = pegCount p makeBoard - 1.
Proof.
  intros p mv.
  assert (Hin : In mv (yields (possibleMovesOf NeighborClosures p makeBoard))).
  { rewrite possibleMovesOf_main. apply possibleMoves_In;
      [ exact safe_makeBoard
      | vm_compute; repeat (first [left; reflexivity | right])
      | reflexivity ]. }
  split; [exact Hin |].
  exact (proj1 (move_removes_one_peg NeighborClosures p mv Hin)).
Defined.

(** ** Positions stay within fifteen bits *)

Lemma lxor_below a b n :
  0 <= n -> 0 <= a < 2 ^ n -> 0 <= b < 2 ^ n -> 0 <= Z.lxor a b < 2 ^ n.
Proof.
  intros Hn Ha Hb.
  assert (Hhigh : forall x i, 0 <= x < 2 ^ n -> n <= i -> Z.testbit x i = false).
  { intros x i Hx Hi. rewrite <- (Z.mod_small x (2 ^ n)) by assumption.
    apply Z.mod_pow2_bits_high. lia. }
  assert (Hmod : Z.lxor a b mod 2 ^ n = Z.lxor a b).
  { apply Z.bits_inj'. intros i Hi.
    destruct (Z.lt_ge_cases i n) as [Hlt | Hge].
    - apply Z.mod_pow2_bits_low. lia.
    - rewrite Z.mod_pow2_bits_high by lia.
      now rewrite Z.lxor_spec, (Hhigh a), (Hhigh b). }
  rewrite <- Hmod. apply Z.mod_pos_bound. apply Z.pow_pos_nonneg; lia.
Qed.

Lemma moveMask_below s m d :
  In (s, m, d) (jumps makeBoard) -> 0 <= moveMask s m d < 2 ^ 15.
Proof.
  intros H.
  assert (Hall : forallb (fun '(s, m, d) =>
                   (0 <=? moveMask s m d) && (moveMask s m d <? 2 ^ 15))
                   (jumps makeBoard) = true) by (vm_compute; reflexivity).
  rewrite forallb_forall in Hall. specialize (Hall _ H).
  cbv beta iota in Hall. apply andb_prop in Hall as [H1 H2]. lia.
Qed.

Lemma jump_keeps_15_bits p s m d :
  0 <= bits p < 2 ^ 15 -> In (s, m, d) (jumps makeBoard) ->
  0 <= bits (apply (jump s m d) p) < 2 ^ 15.
Proof.
  intros Hp Hj. simpl. unfold Int32.xor.
  pose proof (lxor_below (bits p) (moveMask s m d) 15 ltac:(lia) Hp
                (moveMask_below s m d Hj)) as Hx.
  rewrite Int32Facts.wrap_small; [exact Hx |].
  unfold Int32.inRange. lia.
Qed.

Lemma legalFrom_keeps_15_bits ms :
  forall p, 0 <= bits p < 2 ^ 15 -> legalFrom makeBoard p ms ->
  0 <= bits (applyMoves ms p) < 2 ^ 15.
Proof.
  induction ms as [| mv ms IH]; intros p Hp; simpl; [trivial |].
  intros [Hin Hrest]. apply IH; [| exact Hrest].
  apply In_possibleMoves in Hin as (s & m & d & Hj & _ & ->).
  now apply jump_keeps_15_bits.
Qed.

(** X5: positions of the standard board keep their unused high bits clear.
    If the mask of a position lies in [0, 2^15), so does the mask after any
    move enumerated for it (in either file), and so does every position met
    while replaying a solution that [solve] returned for it. *)
Theorem moves_keep_15_bits (v : Variant) (p : Position) :
  0 <= bits p < 2 ^ 15 ->
  (forall mv, In mv (yields (possibleMovesOf v p makeBoard)) ->
     0 <= bits (apply mv p) < 2 ^ 15) /\
  (forall ms k, solveOf v p makeBoard = Solution ms ->
     0 <= bits (applyMoves (firstn k ms) p) < 2 ^ 15).
Proof.
  intros Hp. split.
  - intros mv Hin. rewrite possibleMovesOf_main in Hin.
    apply In_possibleMoves in Hin as (s & m & d & Hj & _ & ->).
    now apply jump_keeps_15_bits.
  - intros ms k H. rewrite solveOf_main in H.
    apply solve_sound in H as (_ & Hleg & _).
    apply legalFrom_keeps_15_bits; [exact Hp |].
    now apply legalFrom_firstn.
Qed.

Lemma moves_keep_15_bits_witness :
  0 <= bits (fullBoardWithVacancyAt 12) < 2 ^ 15 /\
  0 <= bits (applyMoves standardSolution (fullBoardWithVacancyAt 12)) < 2 ^ 15.
Proof.
  assert (Hbits : bits (fullBoardWithVacancyAt 12) = 28671)
    by (vm_compute; reflexivity).
  assert (Hp : 0 <= bits (fullBoardWithVacancyAt 12) < 2 ^ 15)
    by (rewrite Hbits; lia).
  split; [exact Hp |].
  destruct (moves_keep_15_bits OffsetPairs _ Hp) as [_ Hsol].
  specialize (Hsol standardSolution 13%nat solve_standard).
  exact Hsol.
Defined.

(** ** More on positions *)

(** X6: [hasPeg] returns either 0 or the one-bit value [1 << index]; it is
    truthy exactly when the bit numbered [index mod 32] of the position is
    set, and [isEmpty] is the negation.  Holes whose indices agree modulo 32
    are therefore not told apart. *)
Theorem hasPeg_tests_one_bit (p : Position) (h : Hole) :
  (hasPeg p h = 0 \/ hasPeg p h = Int32.shl 1 (index h)) /\
  Int32.truthy (hasPeg p h) = Z.testbit (bits p) (index h mod 32) /\
  isEmpty p h = negb (Z.testbit (bits p) (index h mod 32)) /\
  (forall h', index h' mod 32 = index h mod 32 -> hasPeg p h' = hasPeg p h).
Proof.
  pose proof (occupied_testbit p h) as Hocc.
  assert (Hk : 0 <= index h mod 32 < 32) by (apply Z.mod_pos_bound; lia).
  split; [| split; [exact Hocc | split]].
  - destruct (Z.testbit (bits p) (index h mod 32)) eqn:E.
    + right. unfold hasPeg, Int32.and.
      rewrite <- (Int32Facts.wrap_small (Int32.shl 1 (index h)))
        by apply Int32Facts.wrap_inRange.
      apply Int32Facts.wrap_ext. intros j Hj.
      rewrite Z.land_spec.
      rewrite Int32Facts.wrap_small by apply Int32Facts.wrap_inRange.
      rewrite Int32Facts.testbit_shl_1 by assumption.
      destruct (Z.eqb_spec (index h mod 32) j) as [<- | _].
      * now rewrite E.
      * apply Bool.andb_false_r.
    + left. unfold Int32.truthy in Hocc.
      destruct (Z.eqb_spec (hasPeg p h) 0); [assumption | discriminate].
  - unfold isEmpty. now rewrite Hocc.
  - intros h' Hh'. unfold hasPeg, Int32.shl. now rewrite Hh'.
Qed.

(** ** More on the enumeration *)

Lemma flat_map_agree {A B} (f g : A -> list B) l :
  (forall a, In a l -> f a = g a) -> flat_map f l = flat_map g l.
Proof.
  induction l as [| a l IH]; simpl; intros H; [reflexivity |].
  rewrite H, IH; auto.
Qed.

Lemma flat_map_none {A B} (l : list A) :
  flat_map (fun _ => @nil B) l = [].
Proof. induction l as [| a l IH]; simpl; auto. Qed.

Lemma flat_map_concat_rows {A B} (f : A -> list B) ll :
  flat_map f (concat ll) = flat_map (fun l => flat_map f l) ll.
Proof.
  induction ll as [| l ll IH]; simpl; [reflexivity |].
  now rewrite flat_map_app, IH.
Qed.

Lemma map_filter_flat_map {A B C} (g : B -> C) (q : B -> bool)
    (f : A -> list B) l :
  map g (filter q (flat_map f l)) =
  flat_map (fun a => map g (filter q (f a))) l.
Proof.
  induction l as [| a l IH]; simpl; [reflexivity |].
  now rewrite filter_app, map_app, IH.
Qed.

Lemma yields_from_hole p g s :
  (forall dl, In dl (Offsets.directions s) ->
     exists m d, Offsets.neighbor g dl s = Some m /\
                 Offsets.neighbor g dl m = Some d) ->
  throws (if Int32.truthy (hasPeg p s)
          then forOf (fun dl => tryDirection p (Offsets.neighbor g dl) s)
                     (Offsets.directions s)
          else Done) = false /\
  yields (if Int32.truthy (hasPeg p s)
          then forOf (fun dl => tryDirection p (Offsets.neighbor g dl) s)
                     (Offsets.directions s)
          else Done) = map jumpOf (filter (legal p) (jumpsFrom g s)).
Proof.
  intros Hsafe.
  assert (Hquiet : forall dl, In dl (Offsets.directions s) ->
            throws (tryDirection p (Offsets.neighbor g dl) s) = false).
  { intros dl Hdl. destruct (Hsafe dl Hdl) as (m & d & Hm & Hd).
    rewrite (tryDirection_in_grid p _ s m d Hm Hd).
    now destruct (negb (isEmpty p m) && isEmpty p d). }
  unfold jumpsFrom. rewrite map_filter_flat_map.
  destruct (Int32.truthy (hasPeg p s)) eqn:Es.
  - split; [now apply throws_forOf |].
    rewrite yields_forOf by assumption.
    apply flat_map_agree. intros dl Hdl.
    destruct (Hsafe dl Hdl) as (m & d & Hm & Hd).
    rewrite (tryDirection_in_grid p _ s m d Hm Hd), Hm, Hd.
    simpl. unfold isEmpty. rewrite Es.
    now destruct (Int32.truthy (hasPeg p m)), (Int32.truthy (hasPeg p d)).
  - split; [reflexivity |]. simpl.
    rewrite (flat_map_agree _ (fun _ => [])).
    + symmetry. apply flat_map_none.
    + intros dl Hdl. destruct (Hsafe dl Hdl) as (m & d & Hm & Hd).
      rewrite Hm, Hd. simpl. now rewrite Es.
Qed.

(** X7: on a board whose directions never leave the grid, the moves that
    [possibleMoves] yields (in either file) are, in this order, the legal
    entries of a table that does not depend on the position: the jumps
    reached hole by hole in row-major order and, per hole, in the order of
    [directions]; and the enumeration does not throw. *)
Theorem possibleMoves_is_filtered_table (v : Variant) (p : Position)
    (b : Board) :
  safeBoard b = true ->
  throws (possibleMovesOf v p b) = false /\
  yields (possibleMovesOf v p b) = map jumpOf (filter (legal p) (jumps b)).
Proof.
  intros Hsafe. rewrite possibleMovesOf_main.
  split; [now apply throws_possibleMoves |].
  assert (Hhole : forall thisRow s, In thisRow (grid b) -> In s thisRow ->
            forall dl, In dl (Offsets.directions s) ->
            exists m d, Offsets.neighbor (grid b) dl s = Some m /\
                        Offsets.neighbor (grid b) dl m = Some d).
  { intros thisRow s Hrow Hs dl Hdl.
    apply (safeBoard_spec b Hsafe s dl); [| exact Hdl].
    unfold holes. apply in_concat. exists thisRow. auto. }
  unfold Offsets.possibleMoves, jumps, holes.
  rewrite map_filter_flat_map, flat_map_concat_rows.
  rewrite yields_forOf.
  - apply flat_map_agree. intros thisRow Hrow.
    rewrite yields_forOf.
    + apply flat_map_agree. intros s Hs.
      apply (yields_from_hole p (grid b) s (Hhole thisRow s Hrow Hs)).
    + intros s Hs.
      apply (yields_from_hole p (grid b) s (Hhole thisRow s Hrow Hs)).
  - intros thisRow Hrow. apply throws_forOf. intros s Hs.
    apply (yields_from_hole p (grid b) s (Hhole thisRow s Hrow Hs)).
Qed.

Lemma possibleMoves_is_filtered_table_witness :
  safeBoard makeBoard = true /\
  yields (possibleMovesOf OffsetPairs (mkPosition 3) makeBoard)
    = map jumpOf (filter (legal (mkPosition 3)) (jumps makeBoard)).
Proof.
  assert (Hsafe : safeBoard makeBoard = true) by (vm_compute; reflexivity).
  split; [exact Hsafe |].
  exact (proj2 (possibleMoves_is_filtered_table OffsetPairs (mkPosition 3)
                  makeBoard Hsafe)).
Defined.

Lemma holes_makeBoard_inv h :
  In h (holes makeBoard) ->
  0 <= col h <= row h /\ row h < 5 /\
  gridAt (grid makeBoard) (row h) (col h) = Some h.
Proof.
  intros H. vm_compute in H.
  repeat (destruct H as [<- | H];
          [split; [simpl; lia | split; [simpl; lia | reflexivity]] |]).
  destruct H.
Qed.

Lemma jumps_makeBoard_geometry s m d :
  In (s, m, d) (jumps makeBoard) <->
  In s (holes makeBoard) /\ In m (holes makeBoard) /\ In d (holes makeBoard) /\
  exists dr dc,
    In (dr, dc) [(0, -1); (0, 1); (-1, 0); (-1, -1); (1, 0); (1, 1)] /\
    row m = row s + dr /\ col m = col s + dc /\
    row d = row m + dr /\ col d = col m + dc /\
    ~ (dr = -1 /\ dc = 0 /\ col s = row s - 2).
Proof.
  split.
  - intros Hj. pose proof (jumps_on_board _ _ _ _ Hj) as (Is & Im & Id).
    repeat (split; [assumption |]).
    apply jumps_inv in Hj as (_ & dl & Hdl & Hm & Hd).
    unfold Offsets.neighbor in Hm, Hd.
    apply gridAt_makeBoard in Hm as [Rm Cm].
    apply gridAt_makeBoard in Hd as [Rd Cd].
    exists (Offsets.rowDelta dl), (Offsets.colDelta dl).
    apply directions_spec in Hdl.
    repeat split; try assumption.
    + decompose [or and] Hdl; subst dl; simpl; auto 10.
    + decompose [or and] Hdl; subst dl; simpl; lia.
  - intros (Is & Im & Id & dr & dc & Hdir & Rm & Cm & Rd & Cd & Hedge).
    apply holes_makeBoard_inv in Im as (Bm1 & Bm2 & Gm).
    apply holes_makeBoard_inv in Id as (Bd1 & Bd2 & Gd).
    pose proof (holes_makeBoard_inv _ Is) as (Bs1 & Bs2 & _).
    apply In_jumps with (Offsets.mkDelta dr dc); try assumption.
    + apply directions_spec. unfold N. simpl in Hdir.
      decompose [or] Hdir;
        match goal with
        | H : (_, _) = (dr, dc) |- _ => injection H as <- <-
        | H : False |- _ => destruct H
        end.
      * left. split; [reflexivity | lia].
      * right; left. split; [reflexivity | lia].
      * right; right; left. split; [reflexivity | lia].
      * right; right; right; left. split; [reflexivity | lia].
      * right; right; right; right. split; [left; reflexivity | lia].
      * right; right; right; right. split; [right; reflexivity | lia].
    + unfold Offsets.neighbor. simpl. now rewrite <- Rm, <- Cm.
    + unfold Offsets.neighbor. simpl. now rewrite <- Rd, <- Cd.
Qed.

Lemma jump_inj s m d s' m' d' :
  jump s m d = jump s' m' d' -> (s, m, d) = (s', m', d').
Proof.
  intros H.
  pose proof (f_equal start H) as Hs.
  pose proof (f_equal middle H) as Hm.
  pose proof (f_equal destination H) as Hd.
  simpl in Hs, Hm, Hd. now subst.
Qed.

(** X8: which moves are enumerated on the standard board.  A move is yielded
    (in either file) exactly when it is the jump of three holes of the board
    that lie on one line, each one step of the same of the six directions
    after the other, with a peg on the first two and none on the third;
    except that the upward jumps starting at a hole with [col = row - 2]
    are never yielded. *)
Theorem possibleMoves_iff_legal_line (v : Variant) (p : Position)
    (mv : Move) :
  In mv (yields (possibleMovesOf v p makeBoard)) <->
  exists s m d,
    mv = jump s m d /\
    In s (holes makeBoard) /\ In m (holes makeBoard) /\
    In d (holes makeBoard) /\
    Int32.truthy (hasPeg p s) = true /\
    Int32.truthy (hasPeg p m) = true /\
    isEmpty p d = true /\
    exists dr dc,
      In (dr, dc) [(0, -1); (0, 1); (-1, 0); (-1, -1); (1, 0); (1, 1)] /\
      row m = row s + dr /\ col m = col s + dc /\
      row d = row m + dr /\ col d = col m + dc /\
      ~ (dr = -1 /\ dc = 0 /\ col s = row s - 2).
Proof.
  rewrite possibleMovesOf_main. split.
  - intros Hin. apply In_possibleMoves in Hin as (s & m & d & Hj & Hl & ->).
    exists s, m, d. split; [reflexivity |].
    apply jumps_makeBoard_geometry in Hj as (Is & Im & Id & Hgeo).
    unfold legal in Hl.
    apply andb_prop in Hl as [Hl Ed]. apply andb_prop in Hl as [Es Em].
    repeat (split; [assumption |]). exact Hgeo.
  - intros (s & m & d & -> & Is & Im & Id & Es & Em & Ed & Hgeo).
    apply possibleMoves_In; [exact safe_makeBoard | |].
    + apply jumps_makeBoard_geometry. auto.
    + unfold legal. now rewrite Es, Em, Ed.
Qed.

(** ** The loops of [makeBoard], for any number of rows *)

Lemma fillRow_spec n :
  forall r c i,
    snd (fillRow n r c i) = i + Z.of_nat n /\
    length (fst (fillRow n r c i)) = n /\
    forall j, (j < n)%nat ->
      nth_error (fst (fillRow n r c i)) j
        = Some (mkHole r (c + Z.of_nat j) (i + Z.of_nat j)).
Proof.
  induction n as [| n IH]; intros r c i.
  - simpl. split; [lia |]. split; [reflexivity |]. intros j Hj. lia.
  - simpl. specialize (IH r (c + 1) (i + 1)).
    destruct (fillRow n r (c + 1) (i + 1)) as [rest i'].
    simpl in IH |- *. destruct IH as (Hi & Hlen & Hnth).
    split; [lia |]. split; [lia |].
    intros [| j] Hj; simpl.
    + do 2 f_equal; lia.
    + rewrite Hnth by lia. do 2 f_equal; lia.
Qed.

Lemma half_step r : (r + 1) * (r + 1 + 1) / 2 = r * (r + 1) / 2 + (r + 1).
Proof.
  replace ((r + 1) * (r + 1 + 1)) with (r * (r + 1) + (r + 1) * 2) by lia.
  apply Z.div_add. lia.
Qed.

Lemma fillGrid_length n : forall r i, length (fillGrid n r i) = n.
Proof.
  induction n as [| n IH]; intros r i; simpl; [reflexivity |].
  destruct (fillRow (Z.to_nat (r + 1)) r 0 i) as [thisRow i'].
  simpl. now rewrite IH.
Qed.

Lemma fillGrid_nth n :
  forall r i k, 0 <= r -> i = r * (r + 1) / 2 -> (k < n)%nat ->
    nth_error (fillGrid n r i) k
      = Some (fst (fillRow (Z.to_nat (r + Z.of_nat k + 1)) (r + Z.of_nat k) 0
                     ((r + Z.of_nat k) * (r + Z.of_nat k + 1) / 2))).
Proof.
  induction n as [| n IH]; intros r i k Hr Hi Hk; [lia |].
  cbn [fillGrid].
  pose proof (fillRow_spec (Z.to_nat (r + 1)) r 0 i) as (Hsnd & _ & _).
  destruct (fillRow (Z.to_nat (r + 1)) r 0 i) as [thisRow i'] eqn:E.
  simpl in Hsnd. destruct k as [| k]; simpl nth_error.
  - replace (r + Z.of_nat 0) with r by lia.
    now rewrite <- Hi, E.
  - rewrite (IH (r + 1) i' k) by (rewrite ?half_step; lia).
    replace (r + 1 + Z.of_nat k) with (r + Z.of_nat (S k)) by lia.
    reflexivity.
Qed.

Lemma fillGrid_lookup n r c h :
  gridAt (fillGrid n 0 0) r c = Some h <->
  0 <= c <= r /\ r < Z.of_nat n /\ h = mkHole r c (r * (r + 1) / 2 + c).
Proof.
  unfold gridAt. split.
  - destruct (at_ (fillGrid n 0 0) r) as [thisRow |] eqn:Hrow; [| discriminate].
    intros Hcol. apply at_inv in Hrow as [Hr Hrow].
    rewrite fillGrid_length in Hr.
    rewrite (fillGrid_nth n 0 0 (Z.to_nat r)) in Hrow by (reflexivity || lia).
    injection Hrow as Hrow. subst thisRow.
    apply at_inv in Hcol as [Hc Hcol].
    match type of Hcol with
    | nth_error (fst (fillRow ?a ?b ?c0 ?d)) _ = _ =>
        destruct (fillRow_spec a b c0 d) as (_ & Hlen & Hnth)
    end.
    rewrite Hlen in Hc. rewrite Hnth in Hcol by lia.
    injection Hcol as Hcol. subst h.
    split; [lia |]. split; [lia |].
    rewrite !Z2Nat.id by lia. f_equal; lia.
  - intros (Hc & Hr & ->). unfold at_.
    destruct (Z.ltb_spec r 0); [lia |].
    rewrite (fillGrid_nth n 0 0 (Z.to_nat r)) by (reflexivity || lia).
    destruct (Z.ltb_spec c 0); [lia |].
    match goal with
    | |- nth_error (fst (fillRow ?a ?b ?c0 ?d)) _ = _ =>
        destruct (fillRow_spec a b c0 d) as (_ & _ & Hnth)
    end.
    rewrite Hnth by lia.
    rewrite !Z2Nat.id by lia. do 2 f_equal; lia.
Qed.

(** X9: the board by coordinates.  Run for any number [n] of rows, the loops
    of [makeBoard] build a grid in which [grid[r][c]] exists exactly when
    [0 <= c <= r < n], and is then the hole with that row and column and the
    row-major index [r (r + 1) / 2 + c]; in particular this holds of
    [makeBoard] itself with [n = N]. *)
Theorem makeBoard_lookup :
  (forall n r c h,
     gridAt (fillGrid n 0 0) r c = Some h <->
     0 <= c <= r /\ r < Z.of_nat n /\
     h = mkHole r c (r * (r + 1) / 2 + c)) /\
  (forall r c h,
     gridAt (grid makeBoard) r c = Some h <->
     0 <= c <= r /\ r < N /\ h = mkHole r c (r * (r + 1) / 2 + c)).
Proof.
  split; [exact fillGrid_lookup |].
  intros r c h.
  change (grid makeBoard) with (fillGrid (Z.to_nat N) 0 0).
  rewrite fillGrid_lookup.
  change (Z.of_nat (Z.to_nat N)) with N. reflexivity.
Qed.

Lemma map_seq_from {B} (f : nat -> B) a n :
  map f (seq a n) = map (fun j => f (a + j)%nat) (seq 0 n).
Proof.
  revert a f. induction n as [| n IH]; intros a f; simpl; [reflexivity |].
  rewrite Nat.add_0_r. f_equal.
  rewrite (IH (S a)), (IH 1%nat). apply map_ext. intros j.
  f_equal. lia.
Qed.

Lemma fillRow_index n :
  forall r c i,
    map index (fst (fillRow n r c i))
      = map (fun j => i + Z.of_nat j) (seq 0 n).
Proof.
  induction n as [| n IH]; intros r c i; simpl; [reflexivity |].
  specialize (IH r (c + 1) (i + 1)).
  destruct (fillRow n r (c + 1) (i + 1)) as [rest i']. simpl in IH |- *.
  f_equal; [lia |]. rewrite IH, (map_seq_from _ 1 n).
  apply map_ext. intros j. lia.
Qed.

Lemma fillGrid_index n :
  forall r i,
    map index (concat (fillGrid n r i))
      = map (fun j => i + Z.of_nat j)
            (seq 0 (length (concat (fillGrid n r i)))).
Proof.
  induction n as [| n IH]; intros r i; simpl; [reflexivity |].
  pose proof (fillRow_spec (Z.to_nat (r + 1)) r 0 i) as (Hsnd & Hlen & _).
  pose proof (fillRow_index (Z.to_nat (r + 1)) r 0 i) as Hidx.
  destruct (fillRow (Z.to_nat (r + 1)) r 0 i) as [thisRow i'].
  simpl in Hsnd, Hlen, Hidx |- *.
  rewrite map_app, length_app, seq_app, map_app, Hidx, Hlen, IH.
  f_equal. rewrite (map_seq_from _ (0 + Z.to_nat (r + 1))).
  apply map_ext. intros j. lia.
Qed.

Lemma fillGrid_count n :
  forall r i, 0 <= r ->
    Z.of_nat (length (concat (fillGrid n r i)))
      = (r + Z.of_nat n) * (r + Z.of_nat n + 1) / 2 - r * (r + 1) / 2.
Proof.
  induction n as [| n IH]; intros r i Hr.
  - simpl. replace (r + 0) with r by lia. lia.
  - simpl fillGrid.
    pose proof (fillRow_spec (Z.to_nat (r + 1)) r 0 i) as (_ & Hlen & _).
    destruct (fillRow (Z.to_nat (r + 1)) r 0 i) as [thisRow i'].
    simpl in Hlen. simpl concat.
    rewrite length_app, Nat2Z.inj_add, Hlen, (IH (r + 1)) by lia.
    rewrite half_step.
    replace (r + 1 + Z.of_nat n) with (r + Z.of_nat (S n)) by lia.
    lia.
Qed.

(** X10: the holes of the board in order.  Run for any number [n] of rows,
    the loops of [makeBoard] number the holes 0, 1, 2, ... in row-major
    order without gap or repeat, row [r] holds [r + 1] holes, and there are
    [n (n + 1) / 2] holes in all: 15 for [makeBoard]. *)
Theorem makeBoard_indices (n : nat) :
  map index (concat (fillGrid n 0 0))
    = map Z.of_nat (seq 0 (length (concat (fillGrid n 0 0)))) /\
  Z.of_nat (length (concat (fillGrid n 0 0)))
    = Z.of_nat n * (Z.of_nat n + 1) / 2 /\
  (forall r thisRow,
     nth_error (fillGrid n 0 0) r = Some thisRow -> length thisRow = S r) /\
  length (holes makeBoard) = 15%nat.
Proof.
  split; [| split; [| split; [| reflexivity]]].
  - rewrite fillGrid_index. apply map_ext. intros j. lia.
  - rewrite fillGrid_count by lia. rewrite !Z.add_0_l.
    change (0 * 1 / 2) with 0. apply Z.sub_0_r.
  - intros r thisRow H.
    assert (Hr : (r < n)%nat).
    { rewrite <- (fillGrid_length n 0 0). apply nth_error_Some. congruence. }
    rewrite (fillGrid_nth n 0 0 r) in H by (reflexivity || lia).
    injection H as H. subst thisRow.
    match goal with
    | |- length (fst (fillRow ?a ?b ?c0 ?d)) = _ =>
        destruct (fillRow_spec a b c0 d) as (_ & Hlen & _)
    end.
    rewrite Hlen. lia.
Qed.

(** ** Printing *)

Module PrintingFacts.
Import String Printing.
Local Open Scope string_scope.

Lemma append_empty_r (s : string) : s ++ "" = s.
Proof. induction s as [| a s IH]; simpl; [reflexivity | now rewrite IH]. Qed.

Lemma append_assoc3 (a b c : string) : (a ++ b) ++ c = a ++ b ++ c.
Proof. induction a as [| x a IH]; simpl; [reflexivity | now rewrite IH]. Qed.

Lemma join_app sep (l1 l2 : list string) :
  l1 <> [] -> l2 <> [] ->
  join sep (l1 ++ l2)%list = join sep l1 ++ sep ++ join sep l2.
Proof.
  intros H1 H2. induction l1 as [| x l1 IH]; [congruence |].
  destruct l1 as [| y l1].
  - destruct l2 as [| z l2]; [congruence | reflexivity].
  - change (join sep ((x :: y :: l1) ++ l2)%list)
      with (x ++ sep ++ join sep ((y :: l1) ++ l2)%list).
    rewrite IH by discriminate.
    change (join sep (x :: y :: l1)) with (x ++ sep ++ join sep (y :: l1)).
    now rewrite !append_assoc3.
Qed.

(** X11: [movesToString] of no move is the empty string, and the text for
    two non-empty lists of moves put end to end is the two texts with one
    newline between them. *)
Theorem movesToString_app (ms1 ms2 : list Move) :
  ms1 <> [] -> ms2 <> [] ->
  movesToString [] = "" /\
  movesToString (ms1 ++ ms2)
    = movesToString ms1 ++ newline ++ movesToString ms2.
Proof.
  intros H1 H2. split; [reflexivity |].
  unfold movesToString. rewrite List.map_app.
  apply join_app; intros E; apply List.map_eq_nil in E; contradiction.
Qed.

Lemma movesToString_app_witness :
  let m := jump (mkHole 0 0 0) (mkHole 1 0 1) (mkHole 2 0 3) in
  [m] <> [] /\
  movesToString ([m] ++ [m]) = movesToString [m] ++ newline ++ movesToString [m].
Proof.
  intros m.
  assert (H : [m] <> []) by discriminate.
  split; [exact H |].
  exact (proj2 (movesToString_app [m] [m] H H)).
Defined.

Lemma countChar_app c (a b : string) :
  countChar c (a ++ b) = (countChar c a + countChar c b)%nat.
Proof.
  induction a as [| x a IH]; simpl; [reflexivity |]. rewrite IH. lia.
Qed.

Lemma digits_no_newline u :
  countChar (Ascii.ascii_of_nat 10)
            (DecimalString.NilEmpty.string_of_uint u) = 0%nat.
Proof. induction u; simpl; auto. Qed.

Lemma showNumber_no_newline z :
  countChar (Ascii.ascii_of_nat 10) (showNumber z) = 0%nat.
Proof.
  unfold showNumber.
  destruct (Z.to_int z) as [u | u]; simpl;
    destruct u; simpl; rewrite ?digits_no_newline; reflexivity.
Qed.

Lemma moveLine_no_newline mv :
  countChar (Ascii.ascii_of_nat 10) (moveLine mv) = 0%nat.
Proof.
  unfold moveLine.
  rewrite !countChar_app, !showNumber_no_newline. reflexivity.
Qed.

(** X12: the text of [movesToString] has one line per move: for a non-empty
    list it contains exactly one newline character fewer than there are
    moves, none of them inside a line. *)
Theorem movesToString_line_count (ms : list Move) :
  ms <> [] ->
  S (countChar (Ascii.ascii_of_nat 10) (movesToString ms)) = List.length ms.
Proof.
  intros H. unfold movesToString.
  induction ms as [| m ms IH]; [congruence |].
  destruct ms as [| m' ms].
  - simpl. now rewrite moveLine_no_newline.
  - change (join newline (List.map moveLine (m :: m' :: ms)))
      with (moveLine m ++ newline
            ++ join newline (List.map moveLine (m' :: ms))).
    rewrite !countChar_app, moveLine_no_newline.
    assert (Hne : m' :: ms <> []) by discriminate.
    specialize (IH Hne). simpl List.length in IH |- *.
    change (countChar (Ascii.ascii_of_nat 10) newline) with 1%nat. lia.
Qed.

Lemma movesToString_line_count_witness :
  standardSolution <> [] /\
  S (countChar (Ascii.ascii_of_nat 10) (movesToString standardSolution))
    = 13%nat.
Proof.
  assert (H : standardSolution <> []) by discriminate.
  split; [exact H |].
  exact (movesToString_line_count standardSolution H).
Defined.

(** X13: what the program prints.  For the standard board and the vacancy
    at hole 12, [solve] (in either file) returns a list, and the text handed
    to [console.log] is these thirteen lines, one jump each, as start row,
    start column, destination row and destination column. *)
Theorem program_output (v : Variant) :
  logged (solveOf v (fullBoardWithVacancyAt 12) makeBoard)
    = Some (join newline
              [ "2, 0 -> 4, 2"; "0, 0 -> 2, 0"; "1, 1 -> 3, 1";
                "3, 0 -> 1, 0"; "3, 3 -> 1, 1"; "4, 2 -> 2, 0";
                "1, 0 -> 3, 0"; "4, 0 -> 2, 0"; "4, 3 -> 2, 1";
                "1, 1 -> 3, 1"; "2, 0 -> 4, 2"; "4, 1 -> 4, 3";
                "4, 4 -> 4, 2" ]).
Proof.
  rewrite solveOf_main, solve_standard. vm_compute. reflexivity.
Qed.

End PrintingFacts.
